(** * python-chess-annotator: a shallow embedding of [annotator.py]

    The annotator walks a finished chess game from the last move to the
    first, asks a UCI engine for its best move and score at every position,
    and writes comments, side variations and quality glyphs into the game
    tree.  This file embeds the functions of [annotator.py] and proves
    properties of them.

    Python values are modelled as follows.
    - [int] is [Z]; [str] is [string]; [None]-or-value is [option].
    - An exception is the [Raise] outcome of the [result] type.
    - [float] is an interface ([FloatOps]): the program only divides an
      integer by [100] or [-100], negates, and prints.
    - The engine, the board and the game tree are objects of python-chess,
      a library outside this repository; their models are marked as such. *)

From Stdlib Require Import ZArith String Ascii List Lia Bool.
From Stdlib Require Import Decimal DecimalString DecimalZ.
From stdpp Require Import base decidable option list strings.

Local Open Scope string_scope.
Local Open Scope list_scope.
Local Open Scope Z_scope.

(** ** Outcomes of a Python computation *)

Inductive exn : Type :=
  | UnboundLocalError
  | KeyError
  | AttributeError
  | IndexError
  (** a node id outside the arena: no Python reference is one *)
  | DanglingRef
  (** a loop of the model ran out of fuel: the Python loop does not end *)
  | OutOfFuel.

Inductive result (A : Type) : Type :=
  | Ok (a : A)
  | Raise (e : exn).
Arguments Ok {A} a.
Arguments Raise {A} e.

Definition rbind {A B} (r : result A) (k : A -> result B) : result B :=
  match r with
  | Ok a => k a
  | Raise e => Raise e
  end.

(** [d[k]] on a dictionary entry that may be absent. *)
Definition getitem {A} (o : option A) : result A :=
  match o with
  | Some a => Ok a
  | None => Raise KeyError
  end.

(** ** Values *)

(** [str(n)] for an [int]. *)
Definition str_of_int (n : Z) : string := NilZero.string_of_int (Z.to_int n).

(** A Python value, for a function whose result is not of one type. *)
Inductive PyVal : Type :=
  | PNone
  | PInt (n : Z)
  | PStr (s : string)
  | PTuple2 (fst_item snd_item : PyVal).

(** [chess.Move]: compared by origin, destination and promotion. *)
Record Move : Type := mkMove {
  from_square : N;
  to_square : N;
  promotion : option N
}.

#[global] Instance Move_eq_dec : EqDecision Move.
Proof. solve_decision. Defined.

(** [chess.uci.Score], a named tuple [(cp, mate)]. *)
Record Score : Type := mkScore {
  cp : option Z;
  mate : option Z
}.

(** [chess.uci.InfoHandler]: of its [info] dictionary the program reads
    [info["score"][1]] and [info["pv"][1]]; either entry may be absent. *)
Record InfoHandler : Type := mkInfo {
  info_score : option Score;
  info_pv : option (list Move)
}.

(** Python floats, as far as the program uses them. *)
Class FloatOps : Type := {
  pyfloat : Type;
  (** [a / b] on two [int]s *)
  truediv : Z -> Z -> pyfloat;
  (** unary minus *)
  fneg : pyfloat -> pyfloat;
  (** ['{:.2f}'.format(x)] *)
  format_2f : pyfloat -> string;
  (** [str(x)] *)
  float_str : pyfloat -> string
}.

(** The quality glyphs of [chess.pgn] the program uses. *)
Inductive NAG : Type :=
  | NAG_MISTAKE
  | NAG_BLUNDER
  | NAG_DUBIOUS_MOVE.

#[global] Instance NAG_eq_dec : EqDecision NAG.
Proof. solve_decision. Defined.

(** A judgment: the dictionary [judge_move] builds.  The two comments are
    keys that are set only under a condition, hence [option]. *)
Record Judgment : Type := mkJudgment {
  bestmove : option Move;
  besteval : Z;
  bestcomment : option string;
  pv : list Move;
  playedeval : Z;
  playedcomment : option string
}.

(** ** The evaluation functions *)

Definition max_score : Z := 10000.

(** [eval_numeric]: without a mate score and without a centipawn score no
    branch assigns [result], and [return result] raises. *)
Definition eval_numeric (info_handler : InfoHandler) : result Z :=
  rbind (getitem (info_score info_handler)) (fun score =>
    match mate score with
    | Some dtm =>
        if dtm >=? 1 then Ok (max_score - dtm)
        else Ok (- (max_score - dtm))
    | None =>
        match cp score with
        | Some c => Ok c
        | None => Raise UnboundLocalError
        end
    end).

(** [eval_human]: the mate branch returns the pair [("Mate in ", mate)];
    with neither score the function falls off its end and returns [None]. *)
Definition eval_human `{FloatOps} (info_handler : InfoHandler) : result PyVal :=
  rbind (getitem (info_score info_handler)) (fun score =>
    match mate score with
    | Some m => Ok (PTuple2 (PStr "Mate in ") (PInt m))
    | None =>
        match cp score with
        | Some c => Ok (PStr (float_str (truediv c 100)))
        | None => Ok PNone
        end
    end).

Definition eval_absolute `{FloatOps} (number : pyfloat) (white_to_move : bool) : string :=
  let number := if negb white_to_move then fneg number else number in
  format_2f number.

Definition needs_annotation (judgment : Judgment) : bool :=
  let delta := playedeval judgment - besteval judgment in
  delta <? -50.

Definition get_nags (judgment : Judgment) : list NAG :=
  let delta := playedeval judgment - besteval judgment in
  let nags := [] in
  let nags :=
    if delta <? -300 then [NAG_BLUNDER]
    else if delta <? -150 then [NAG_MISTAKE]
    else if delta <? -75 then [NAG_DUBIOUS_MOVE]
    else nags in
  let nags := if playedeval judgment >? 800 then [] else nags in
  let nags := if besteval judgment <? -800 then [] else nags in
  nags.

(** The text the judge writes for a mate score: ["Mate in {}".format(abs(m))]. *)
Definition mate_comment (m : Z) : string := ("Mate in " ++ str_of_int (Z.abs m))%string.

(** ** The game tree (python-chess, outside this repository)

    A [chess.pgn.GameNode] has a parent, the move that leads to it, a
    comment, glyphs and its variations, the first of which is the main line.
    Nodes live in an arena, a node's identity being its index, so that a
    change made through one reference is seen through every other. *)

Record GameNode : Type := mkNode {
  parent : option nat;
  move : option Move;
  comment : string;
  nags : list NAG;
  variations : list nat
}.

Abbreviation Tree := (list GameNode).

Definition node_at (t : Tree) (i : nat) : result GameNode :=
  match t !! i with
  | Some n => Ok n
  | None => Raise DanglingRef
  end.

(** [None.attribute] raises. *)
Definition deref (o : option nat) : result nat :=
  match o with
  | Some i => Ok i
  | None => Raise AttributeError
  end.

Definition set_comment (t : Tree) (i : nat) (c : string) : Tree :=
  alter (fun n => {| parent := parent n; move := move n; comment := c;
                     nags := nags n; variations := variations n |}) i t.

Definition set_nags (t : Tree) (i : nat) (g : list NAG) : Tree :=
  alter (fun n => {| parent := parent n; move := move n; comment := comment n;
                     nags := g; variations := variations n |}) i t.

Definition set_variations (t : Tree) (i : nat) (vs : list nat) : Tree :=
  alter (fun n => {| parent := parent n; move := move n; comment := comment n;
                     nags := nags n; variations := vs |}) i t.

(** Modelled from the spec: [add_main_variation] of python-chess, which is
    not in this repository.  It attaches the move as a new child of the node
    and makes that child the node's main child. *)
Definition add_main_variation (t : Tree) (p : nat) (m : option Move) : result Tree :=
  rbind (node_at t p) (fun pn =>
    let new := length t in
    let child := {| parent := Some p; move := m; comment := "";
                    nags := []; variations := [] |} in
    Ok (set_variations t p (new :: variations pn) ++ [child])).

Definition has_move (t : Tree) (m : option Move) (i : nat) : bool :=
  bool_decide (move <$> t !! i = Some m).

(** Modelled from the spec: [variation] of python-chess, called with a move.
    It is the first child that carries the move, [KeyError] without one. *)
Definition variation (t : Tree) (p : nat) (m : option Move) : result nat :=
  rbind (node_at t p) (fun pn =>
    match List.find (has_move t m) (variations pn) with
    | Some v => Ok v
    | None => Raise KeyError
    end).

(** The position of an id in a list: Python's [list.index]. *)
Fixpoint index_of (v : nat) (l : list nat) : option nat :=
  match l with
  | [] => None
  | x :: rest =>
      if decide (x = v) then Some O
      else option_map S (index_of v rest)
  end.

(** Swapping the entries at [i] and [i + 1]. *)
Definition swap_next (l : list nat) (i : nat) : list nat :=
  match l !! i, l !! S i with
  | Some a, Some b => <[ S i := a ]> (<[ i := b ]> l)
  | _, _ => l
  end.

(** Modelled from the spec: [demote] of python-chess, called with a move.
    The variation of that move changes place with the one after it, when
    there is one; no child is removed. *)
Definition demote (t : Tree) (p : nat) (m : option Move) : result Tree :=
  rbind (variation t p m) (fun v =>
  rbind (node_at t p) (fun pn =>
    match index_of v (variations pn) with
    | Some i => Ok (set_variations t p (swap_next (variations pn) i))
    | None => Raise KeyError
    end)).

(** ** Inserting an annotation *)

(** [l[:k]], also for a negative [k]. *)
Definition slice_to {A} (l : list A) (k : Z) : list A :=
  if 0 <=? k then take (Z.to_nat k) l
  else take (Z.to_nat (Z.of_nat (length l) + k)) l.

(** The [for] loop of [add_annotation] over the truncated variation. *)
Fixpoint add_pv (moves : list Move) (t : Tree) (var_node : nat) : result (Tree * nat) :=
  match moves with
  | [] => Ok (t, var_node)
  | m :: rest =>
      rbind (node_at t var_node) (fun vn =>
        if decide (move vn <> Some m) then
          rbind (add_main_variation t var_node (Some m)) (fun t' =>
          rbind (variation t' var_node (Some m)) (fun var_node' =>
            add_pv rest t' var_node'))
        else add_pv rest t var_node)
  end.

Definition add_annotation (node : nat) (judgment : Judgment) (searchdepth : Z)
    (t : Tree) : result Tree :=
  rbind (node_at t node) (fun n =>
  let prev_node := parent n in
  rbind (if decide (bestmove judgment <> move n)
         then rbind (getitem (playedcomment judgment)) (fun c =>
                Ok (set_comment t node c))
         else Ok t) (fun t =>
  rbind (deref prev_node) (fun prev =>
  rbind (add_main_variation t prev (bestmove judgment)) (fun t =>
  rbind (variation t prev (bestmove judgment)) (fun var_node =>
  let max_var_length := searchdepth / 2 in
  rbind (add_pv (slice_to (pv judgment) max_var_length) t var_node) (fun '(t, var_node) =>
  rbind (getitem (bestcomment judgment)) (fun c =>
  let t := set_comment t var_node c in
  rbind (demote t prev (bestmove judgment)) (fun t =>
  Ok (set_nags t node (get_nags judgment)))))))))).

(** ** The board (python-chess, outside this repository)

    Of [chess.Board] the program uses [push], [pop] and [turn].  A board is
    its starting position and the stack of moves pushed on it: [push]
    appends a move, [pop] takes the last one off again and raises
    [IndexError] on an empty stack, and the side to move alternates with
    every move pushed. *)

Record Board : Type := mkBoard {
  start_fen : string;
  start_turn : bool;
  move_stack : list Move
}.

#[global] Instance Board_eq_dec : EqDecision Board.
Proof. solve_decision. Defined.

Definition board_turn (b : Board) : bool :=
  if Nat.even (length (move_stack b)) then start_turn b
  else negb (start_turn b).

Definition board_push (m : Move) (b : Board) : Board :=
  {| start_fen := start_fen b;
     start_turn := start_turn b;
     move_stack := move_stack b ++ [m] |}.

Definition board_pop (b : Board) : result Board :=
  match move_stack b with
  | [] => Raise IndexError
  | _ :: _ =>
      Ok {| start_fen := start_fen b;
            start_turn := start_turn b;
            move_stack := removelast (move_stack b) |}
  end.

(** ** The engine (python-chess and the UCI engine, outside this repository)

    What one [go] command leaves behind: [engine.bestmove] and the
    [info] dictionary of the handler. *)

Record Reply : Type := mkReply {
  reply_bestmove : option Move;
  reply_info : InfoHandler
}.

(** An engine that answers from a script, one reply per search; used to run
    the definitions on concrete games. *)
Definition scripted_search (script : list Reply) (_ : Board) (_ : Z)
  : list Reply * Reply :=
  match script with
  | r :: rest => (rest, r)
  | [] => ([], {| reply_bestmove := None;
                  reply_info := {| info_score := None; info_pv := None |} |})
  end.

(** Decimal numbers with two places and a sign bit: the values the quotients
    by [100] and [-100] take, zero keeping its sign as a float does.  Used to
    run the definitions on concrete games. *)
Record Centi : Type := mkCenti {
  centi_neg : bool;
  centi_abs : N
}.

Definition two_digits (n : N) : string :=
  let s := str_of_int (Z.of_N n) in
  if (n <? 10)%N then ("0" ++ s)%string else s.

Definition centi_sign (x : Centi) : string :=
  if centi_neg x then "-" else "".

Definition centi_format_2f (x : Centi) : string :=
  (centi_sign x ++ str_of_int (Z.of_N (centi_abs x / 100)) ++ "."
     ++ two_digits (centi_abs x mod 100))%string.

Definition centi_str (x : Centi) : string :=
  let frac := (centi_abs x mod 100)%N in
  (centi_sign x ++ str_of_int (Z.of_N (centi_abs x / 100)) ++ "."
     ++ (if (frac mod 10 =? 0)%N then str_of_int (Z.of_N (frac / 10))
         else two_digits frac))%string.

#[global] Instance centi_float : FloatOps := {|
  pyfloat := Centi;
  truediv a b :=
    {| centi_neg := xorb (a <? 0) (b <? 0);
       centi_abs := Z.to_N (Z.abs a * 100 / Z.abs b) |};
  fneg x := {| centi_neg := negb (centi_neg x); centi_abs := centi_abs x |};
  format_2f := centi_format_2f;
  float_str := centi_str
|}.

(** The predicates of [chess.Board] the program asks (the rules of chess,
    python-chess). *)
Record BoardRules : Type := mkRules {
  is_game_over : Board -> bool;
  is_stalemate : Board -> bool;
  is_insufficient_material : Board -> bool;
  can_claim_fifty_moves : Board -> bool;
  can_claim_threefold_repetition : Board -> bool;
  is_checkmate : Board -> bool
}.

(** [node.board()]: the board of the root with the moves down to the node
    pushed on it, a fresh object at every call. *)
Fixpoint node_board (fuel : nat) (start : Board) (t : Tree) (node : nat) : result Board :=
  match fuel with
  | O => Raise OutOfFuel
  | S fuel =>
      rbind (node_at t node) (fun n =>
        match parent n with
        | None => Ok start
        | Some p =>
            rbind (node_board fuel start t p) (fun b =>
              match move n with
              | Some m => Ok (board_push m b)
              | None => Raise AttributeError
              end)
        end)
  end.

(** [node.end()]: down the main line to its last node. *)
Fixpoint game_end (fuel : nat) (t : Tree) (node : nat) : result nat :=
  match fuel with
  | O => Raise OutOfFuel
  | S fuel =>
      rbind (node_at t node) (fun n =>
        match variations n with
        | [] => Ok node
        | v :: _ => game_end fuel t v
        end)
  end.

(** [node.root()]: up the parents to the node without one. *)
Fixpoint game_root (fuel : nat) (t : Tree) (node : nat) : result nat :=
  match fuel with
  | O => Raise OutOfFuel
  | S fuel =>
      rbind (node_at t node) (fun n =>
        match parent n with
        | None => Ok node
        | Some p => game_root fuel t p
        end)
  end.

(** What [main] did at a node, in order: it judged the move of the node,
    and it called [add_annotation] on the node.  The log is not an object of
    the program; it records the calls. *)
Inductive Event : Type :=
  | Judged (node : nat) (judgment : Judgment)
  | Annotated (node : nat) (judgment : Judgment).

Section Annotator.

Context {float_ops : FloatOps}.

(** The engine is a black box with a state of its own (its hash tables):
    a search takes the engine's state, the position set and the depth. *)
Variable EngineSt : Type.
Variable engine_search : EngineSt -> Board -> Z -> EngineSt * Reply.
Variable engine_name : string.
Variable rules : BoardRules.

(** ** The objects [judge_move] works on

    [w_board] is the caller's board object, [w_position] the position the
    engine was last given, [w_bestmove] is [engine.bestmove], [w_info] the
    info handler, and [w_searches] lists the searches run so far. *)

Record World : Type := mkWorld {
  w_board : Board;
  w_engine : EngineSt;
  w_position : Board;
  w_bestmove : option Move;
  w_info : InfoHandler;
  w_searches : list (Board * Z)
}.

Definition M (A : Type) : Type := World -> result (A * World).

Definition mret {A} (a : A) : M A := fun w => Ok (a, w).

Definition mbind {A B} (c : M A) (k : A -> M B) : M B :=
  fun w =>
    match c w with
    | Ok (a, w') => k a w'
    | Raise e => Raise e
    end.

Notation "'do' x <- c ; k" := (mbind c (fun x => k))
  (at level 10, x name, c at level 100, k at level 200).

(** Reading the info handler with a function that may raise. *)
Definition with_info {A} (f : InfoHandler -> result A) : M A :=
  fun w =>
    match f (w_info w) with
    | Ok a => Ok (a, w)
    | Raise e => Raise e
    end.

Definition get_bestmove : M (option Move) := fun w => Ok (w_bestmove w, w).

Definition get_turn : M bool := fun w => Ok (board_turn (w_board w), w).

(** [engine.position(board)] *)
Definition engine_position : M unit :=
  fun w =>
    Ok (tt, {| w_board := w_board w;
               w_engine := w_engine w;
               w_position := w_board w;
               w_bestmove := w_bestmove w;
               w_info := w_info w;
               w_searches := w_searches w |}).

(** [engine.go(depth=searchdepth)] *)
Definition engine_go (searchdepth : Z) : M unit :=
  fun w =>
    let '(e, r) := engine_search (w_engine w) (w_position w) searchdepth in
    Ok (tt, {| w_board := w_board w;
               w_engine := e;
               w_position := w_position w;
               w_bestmove := reply_bestmove r;
               w_info := reply_info r;
               w_searches := w_searches w ++ [(w_position w, searchdepth)] |}).

(** [board.push(played_move)]; pushing [None] raises inside python-chess. *)
Definition push (played_move : option Move) : M unit :=
  fun w =>
    match played_move with
    | Some m =>
        Ok (tt, {| w_board := board_push m (w_board w);
                   w_engine := w_engine w;
                   w_position := w_position w;
                   w_bestmove := w_bestmove w;
                   w_info := w_info w;
                   w_searches := w_searches w |})
    | None => Raise AttributeError
    end.

(** [board.pop()] *)
Definition pop : M unit :=
  fun w =>
    match board_pop (w_board w) with
    | Ok b =>
        Ok (tt, {| w_board := b;
                   w_engine := w_engine w;
                   w_position := w_position w;
                   w_bestmove := w_bestmove w;
                   w_info := w_info w;
                   w_searches := w_searches w |})
    | Raise e => Raise e
    end.

(** The comment of a move, from the score the info handler holds: the two
    [if]/[elif] blocks of [judge_move], which differ in the divisor only.
    With neither score the key is not set. *)
Definition score_comment (divisor : Z) : M (option string) :=
  do score <- with_info (fun h => getitem (info_score h)) ;
  match mate score with
  | Some m => mret (Some (mate_comment m))
  | None =>
      match cp score with
      | Some c =>
          do turn <- get_turn ;
          mret (Some (eval_absolute (truediv c divisor) turn))
      | None => mret None
      end
  end.

Definition judge_move (played_move : option Move) (searchdepth : Z) : M Judgment :=
  do _ <- engine_position ;
  do _ <- engine_go searchdepth ;
  do best <- get_bestmove ;
  do beval <- with_info eval_numeric ;
  do line <- with_info (fun h => getitem (info_pv h)) ;
  do bcomment <- score_comment 100 ;
  do engine_best <- get_bestmove ;
  do peval <-
    (if decide (played_move = engine_best) then mret beval
     else
       do _ <- push played_move ;
       do _ <- engine_position ;
       do _ <- engine_go searchdepth ;
       do e <- with_info eval_numeric ;
       do _ <- pop ;
       mret (- e)) ;
  do pcomment <- score_comment (-100) ;
  mret {| bestmove := best;
          besteval := beval;
          bestcomment := bcomment;
          pv := line;
          playedeval := peval;
          playedcomment := pcomment |}.

(** ** The walk over the game *)

Definition var_end_comment (fuel : nat) (start : Board) (t : Tree) (node : nat)
    (score : string) : result string :=
  rbind (node_board fuel start t node) (fun b =>
    Ok (if is_stalemate rules b then "Stalemate"
        else if is_insufficient_material rules b
             then "Insufficient material to mate"
        else if can_claim_fifty_moves rules b then "Fifty move rule"
        else if can_claim_threefold_repetition rules b
             then "Three-fold repetition"
        else if is_checkmate rules b then ""
        else score)).

(** A call [judge_move(b, ...)]: the board passed is the caller's object. *)
Definition judge_on (b : Board) (played_move : option Move) (searchdepth : Z)
    (w : World) : result (Judgment * World) :=
  judge_move played_move searchdepth
    {| w_board := b;
       w_engine := w_engine w;
       w_position := w_position w;
       w_bestmove := w_bestmove w;
       w_info := w_info w;
       w_searches := w_searches w |}.

(** "Analyze the final position": the [if]/[else] of [main] on the last
    node of the main line. *)
Definition analyze_final (fuel : nat) (start : Board) (depth : Z) (node : nat)
    (t : Tree) (w : World) : result (Tree * World * list Event) :=
  rbind (node_board fuel start t node) (fun b =>
    if is_game_over rules b then
      rbind (var_end_comment fuel start t node "") (fun c =>
        Ok (set_comment t node c, w, []))
    else
      rbind (node_at t node) (fun n =>
      rbind (deref (parent n)) (fun prev =>
      rbind (node_board fuel start t prev) (fun pb =>
      rbind (judge_on pb (move n) depth w) (fun '(judgment, w) =>
      rbind (add_annotation node judgment depth t) (fun t =>
        Ok (t, w, [Judged node judgment; Annotated node judgment]))))))).

(** The [while] loop of [main], from the node it is at to the root.  The
    diagnostic prints are left out. *)
Fixpoint walk_back (fuel : nat) (start : Board) (depth : Z) (game : nat)
    (node : option nat) (t : Tree) (w : World) (log : list Event)
    : result (Tree * World * list Event * option nat) :=
  match fuel with
  | O => Raise OutOfFuel
  | S fuel' =>
      rbind (game_root (S (length t)) t game) (fun root =>
        if decide (node = Some root) then Ok (t, w, log, node)
        else
          rbind (deref node) (fun cur =>
          rbind (node_at t cur) (fun n =>
          let prev_node := parent n in
          rbind (deref prev_node) (fun prev =>
          rbind (node_board (S (length t)) start t prev) (fun pb =>
          rbind (judge_on pb (move n) depth w) (fun '(judgment, w) =>
          if needs_annotation judgment then
            rbind (add_annotation cur judgment depth t) (fun t =>
              walk_back fuel' start depth game prev_node t w
                (log ++ [Judged cur judgment; Annotated cur judgment]))
          else
            walk_back fuel' start depth game prev_node t w
              (log ++ [Judged cur judgment])))))))
  end.

(** [main], from the game read to the tree it prints: [game] is the root
    of the tree [t], [start] its starting board. *)
Definition main (start : Board) (depth : Z) (game : nat) (t : Tree) (w : World)
    : result (Tree * World * list Event) :=
  let fuel := S (length t) in
  rbind (game_end fuel t game) (fun node =>
  rbind (analyze_final fuel start depth node t w) (fun '(t, w, log) =>
  rbind (node_at t node) (fun n =>
  let node := parent n in
  rbind (walk_back fuel start depth game node t w log) (fun '(t, w, log, node) =>
  rbind (deref node) (fun root =>
    Ok (set_comment t root (engine_name ++ " Depth: " ++ str_of_int depth)%string,
        w, log)))))).

(** * Properties *)

(** ** The evaluation functions *)

Lemma eval_numeric_mate (h : InfoHandler) (s : Score) (m : Z) :
  info_score h = Some s -> mate s = Some m ->
  eval_numeric h =
    Ok (if m >=? 1 then max_score - m else - (max_score - m)).
Proof.
  intros Hs Hm. unfold eval_numeric. rewrite Hs. simpl. rewrite Hm.
  now destruct (m >=? 1).
Qed.

Lemma eval_numeric_cp (h : InfoHandler) (s : Score) (c : Z) :
  info_score h = Some s -> mate s = None -> cp s = Some c ->
  eval_numeric h = Ok c.
Proof.
  intros Hs Hm Hc. unfold eval_numeric. rewrite Hs. simpl. now rewrite Hm, Hc.
Qed.

(** C1, as amended.  For a mate score [m >= 1] [eval_numeric] returns
    [sign(m) * (10000 - |m|)], which is [10000 - m]; for the mate score [0]
    it returns [-10000]; for a centipawn score it returns the score
    unchanged.  A mate score [m >= 1] exceeds in magnitude every centipawn
    score [c] with [|c| < 10000 - m], and of two mate scores
    [1 <= m < m'] the shorter one lies closer to the bound [10000]. *)
Theorem eval_numeric_scale (h h' : InfoHandler) (s s' : Score) :
  info_score h = Some s ->
  info_score h' = Some s' ->
  (forall m, mate s = Some m -> 1 <= m ->
     eval_numeric h = Ok (Z.sgn m * (max_score - Z.abs m)))
  /\ (mate s = Some 0 -> eval_numeric h = Ok (- max_score))
  /\ (forall c, mate s = None -> cp s = Some c -> eval_numeric h = Ok c)
  /\ (forall m c, mate s = Some m -> 1 <= m ->
        mate s' = None -> cp s' = Some c -> Z.abs c < max_score - m ->
        exists a b, eval_numeric h = Ok a /\ eval_numeric h' = Ok b
                    /\ Z.abs b < Z.abs a)
  /\ (forall m m', mate s = Some m -> mate s' = Some m' -> 1 <= m < m' ->
        exists a b, eval_numeric h = Ok a /\ eval_numeric h' = Ok b
                    /\ 0 <= max_score - a < max_score - b).
Proof.
  intros Hs Hs'. repeat split.
  - intros m Hm Hge. rewrite (eval_numeric_mate h s m Hs Hm).
    destruct (Z.geb_spec m 1) as [_|Hlt]; [|lia].
    f_equal. rewrite Z.sgn_pos, Z.abs_eq by lia. lia.
  - intros Hm. rewrite (eval_numeric_mate h s 0 Hs Hm). reflexivity.
  - intros c Hm Hc. now apply eval_numeric_cp with s.
  - intros m c Hm Hge Hm' Hc Hlt.
    exists (max_score - m), c. repeat split.
    + rewrite (eval_numeric_mate h s m Hs Hm).
      destruct (Z.geb_spec m 1); [reflexivity | lia].
    + now apply eval_numeric_cp with s'.
    + lia.
  - intros m m' Hm Hm' Hlt.
    exists (max_score - m), (max_score - m'). repeat split.
    + rewrite (eval_numeric_mate h s m Hs Hm).
      destruct (Z.geb_spec m 1); [reflexivity | lia].
    + rewrite (eval_numeric_mate h' s' m' Hs' Hm').
      destruct (Z.geb_spec m' 1); [reflexivity | lia].
    + lia.
    + lia.
Qed.

(** C6.  On the mate score [-3] [eval_human] returns the pair of the string
    ["Mate in "] and the number [-3]: not a string, and the sign is kept. *)
Theorem eval_human_mate_pair :
  eval_human {| info_score := Some {| cp := None; mate := Some (-3) |};
                info_pv := None |}
  = Ok (PTuple2 (PStr "Mate in ") (PInt (-3))).
Proof. reflexivity. Qed.

Lemma get_nags_thresholds (j : Judgment) :
  playedeval j <= 800 -> -800 <= besteval j ->
  get_nags j =
    let delta := playedeval j - besteval j in
    if delta <? -300 then [NAG_BLUNDER]
    else if delta <? -150 then [NAG_MISTAKE]
    else if delta <? -75 then [NAG_DUBIOUS_MOVE]
    else [].
Proof.
  intros Hp Hb. unfold get_nags.
  destruct (Z.gtb_spec (playedeval j) 800); [lia|].
  destruct (Z.ltb_spec (besteval j) (-800)); [lia|].
  reflexivity.
Qed.

(** C4.  When neither override applies, the thresholds of [get_nags] are
    half-open: a delta of [-301] is a blunder, [-300] a mistake, [-150] a
    dubious move, and [-75] gets no glyph. *)
Theorem get_nags_boundaries (j : Judgment) :
  playedeval j <= 800 -> -800 <= besteval j ->
  (playedeval j - besteval j = -301 -> get_nags j = [NAG_BLUNDER])
  /\ (playedeval j - besteval j = -300 -> get_nags j = [NAG_MISTAKE])
  /\ (playedeval j - besteval j = -150 -> get_nags j = [NAG_DUBIOUS_MOVE])
  /\ (playedeval j - besteval j = -75 -> get_nags j = []).
Proof.
  intros Hp Hb. rewrite (get_nags_thresholds j Hp Hb). cbv zeta.
  repeat split; intros ->; reflexivity.
Qed.

(** C5.  Either override, [playedeval > 800] or [besteval < -800], empties
    the glyphs whatever the thresholds gave. *)
Theorem get_nags_override (j : Judgment) :
  playedeval j > 800 \/ besteval j < -800 -> get_nags j = [].
Proof.
  intros H. unfold get_nags.
  destruct (Z.ltb_spec (besteval j) (-800)); [reflexivity|].
  destruct (Z.gtb_spec (playedeval j) 800); [reflexivity|].
  lia.
Qed.

(** ** The move judge *)

(** The world after a search of [b] from the world [w]. *)
Definition searched (b : Board) (depth : Z) (w : World) : World :=
  let '(e, r) := engine_search (w_engine w) b depth in
  {| w_board := w_board w;
     w_engine := e;
     w_position := b;
     w_bestmove := reply_bestmove r;
     w_info := reply_info r;
     w_searches := w_searches w ++ [(b, depth)] |}.

(** The comment [score_comment] computes, as a function of what it reads. *)
Definition comment_of (h : InfoHandler) (divisor : Z) (turn : bool)
  : result (option string) :=
  rbind (getitem (info_score h)) (fun score =>
    match mate score with
    | Some m => Ok (Some (mate_comment m))
    | None =>
        match cp score with
        | Some c => Ok (Some (eval_absolute (truediv c divisor) turn))
        | None => Ok None
        end
    end).

Lemma score_comment_eq (divisor : Z) (w : World) :
  score_comment divisor w =
    rbind (comment_of (w_info w) divisor (board_turn (w_board w)))
      (fun c => Ok (c, w)).
Proof.
  unfold score_comment, comment_of, mbind, with_info, get_turn, mret.
  destruct (info_score (w_info w)) as [sc|]; simpl; [|reflexivity].
  destruct (mate sc); [reflexivity|].
  destruct (cp sc); reflexivity.
Qed.

Lemma search_steps {A} (depth : Z) (k : M A) (w : World) :
  mbind engine_position (fun _ => mbind (engine_go depth) (fun _ => k)) w
  = k (searched (w_board w) depth w).
Proof.
  unfold mbind, engine_position, engine_go, searched. simpl.
  destruct (engine_search (w_engine w) (w_board w) depth). reflexivity.
Qed.

Lemma board_pop_push (m : Move) (b : Board) :
  board_pop (board_push m b) = Ok b.
Proof.
  destruct b as [f t st]. unfold board_pop, board_push. simpl.
  destruct (st ++ [m]) eqn:E.
  - now destruct st.
  - rewrite <- E, removelast_last. reflexivity.
Qed.

(** What [judge_move] returns, case by case. *)
Lemma judge_move_cases (played : option Move) (depth : Z) (w : World)
    (j : Judgment) (w' : World) :
  judge_move played depth w = Ok (j, w') ->
  let b := w_board w in
  let w1 := searched b depth w in
  exists line bc pc,
    eval_numeric (w_info w1) = Ok (besteval j)
    /\ info_pv (w_info w1) = Some line
    /\ comment_of (w_info w1) 100 (board_turn b) = Ok bc
    /\ comment_of (w_info w') (-100) (board_turn b) = Ok pc
    /\ j = {| bestmove := w_bestmove w1; besteval := besteval j;
              bestcomment := bc; pv := line;
              playedeval := playedeval j; playedcomment := pc |}
    /\ ((played = w_bestmove w1 /\ playedeval j = besteval j /\ w' = w1)
        \/ (played <> w_bestmove w1
            /\ exists m e,
                 played = Some m
                 /\ eval_numeric
                      (w_info (searched (board_push m b) depth
                                 {| w_board := board_push m b;
                                    w_engine := w_engine w1;
                                    w_position := w_position w1;
                                    w_bestmove := w_bestmove w1;
                                    w_info := w_info w1;
                                    w_searches := w_searches w1 |})) = Ok e
                 /\ playedeval j = - e
                 /\ w_board w' = b
                 /\ w_searches w' =
                      w_searches w ++ [(b, depth); (board_push m b, depth)]
                 /\ eval_numeric (w_info w') = Ok e)).
Proof.
  intros H b w1. unfold judge_move in H.
  rewrite search_steps in H. fold b w1 in H.
  assert (Hb1 : w_board w1 = b).
  { unfold w1, searched. now destruct (engine_search _ _ _). }
  assert (Hs1 : w_searches w1 = w_searches w ++ [(b, depth)]).
  { unfold w1, searched. now destruct (engine_search _ _ _). }
  unfold mbind at 1, get_bestmove at 1 in H.
  unfold mbind at 1, with_info at 1 in H.
  destruct (eval_numeric (w_info w1)) as [be|] eqn:Ebe; [|discriminate].
  unfold mbind at 1, with_info at 1 in H.
  destruct (info_pv (w_info w1)) as [line|] eqn:Epv; simpl in H; [|discriminate].
  unfold mbind at 1 in H. rewrite score_comment_eq in H. rewrite Hb1 in H.
  destruct (comment_of (w_info w1) 100 (board_turn b)) as [bc|] eqn:Ebc;
    simpl in H; [|discriminate].
  unfold mbind at 1, get_bestmove at 1 in H.
  unfold mbind at 1 in H.
  destruct (decide (played = w_bestmove w1)) as [Heq|Hne].
  - unfold mret at 1 in H.
    unfold mbind at 1 in H. rewrite score_comment_eq in H. rewrite Hb1 in H.
    destruct (comment_of (w_info w1) (-100) (board_turn b)) as [pc|] eqn:Epc;
      simpl in H; [|discriminate].
    unfold mret in H. injection H as <- <-. simpl.
    exists line, bc, pc. repeat split; try assumption. now left.
  - destruct played as [m|]; [|discriminate].
    unfold mbind at 1, push at 1 in H.
    rewrite search_steps in H. cbn [w_board] in H.
    rewrite Hb1 in H.
    set (w2 := searched (board_push m b) depth _) in H.
    assert (Hb2 : w_board w2 = board_push m b).
    { unfold w2, searched. now destruct (engine_search _ _ _). }
    assert (Hs2 : w_searches w2 =
                  w_searches w ++ [(b, depth); (board_push m b, depth)]).
    { unfold w2, searched. destruct (engine_search _ _ _). simpl.
      rewrite Hs1, <- app_assoc. reflexivity. }
    unfold mbind at 1, with_info at 1 in H.
    destruct (eval_numeric (w_info w2)) as [e|] eqn:Ee; [|discriminate].
    unfold mbind at 1, pop at 1 in H. rewrite Hb2, board_pop_push in H.
    unfold mret at 1 in H.
    unfold mbind at 1 in H. rewrite score_comment_eq in H. cbn [w_board w_info] in H.
    destruct (comment_of (w_info w2) (-100) (board_turn b)) as [pc|] eqn:Epc;
      simpl in H; [|discriminate].
    unfold mret in H. injection H as <- <-. simpl.
    exists line, bc, pc. repeat split; try assumption.
    right. split; [assumption|]. exists m, e. repeat split; assumption.
Qed.

Lemma comment_of_ok (h : InfoHandler) (v divisor : Z) (turn : bool) :
  eval_numeric h = Ok v ->
  exists c, comment_of h divisor turn = Ok (Some c).
Proof.
  unfold eval_numeric, comment_of.
  destruct (info_score h) as [sc|]; simpl; [|discriminate].
  destruct (mate sc); [eauto|].
  destruct (cp sc); [eauto|discriminate].
Qed.

Lemma searched_board (b : Board) (depth : Z) (w : World) :
  w_board (searched b depth w) = w_board w.
Proof. unfold searched. now destruct (engine_search _ _ _). Qed.

Lemma searched_searches (b : Board) (depth : Z) (w : World) :
  w_searches (searched b depth w) = w_searches w ++ [(b, depth)].
Proof. unfold searched. now destruct (engine_search _ _ _). Qed.

(** With the engine's best move played, [judge_move] returns as soon as the
    first search gave a score and a variation. *)
Lemma judge_move_best_returns (played : option Move) (depth : Z) (w : World)
    (v : Z) (line : list Move) :
  let w1 := searched (w_board w) depth w in
  played = w_bestmove w1 ->
  eval_numeric (w_info w1) = Ok v ->
  info_pv (w_info w1) = Some line ->
  exists j, judge_move played depth w = Ok (j, w1)
            /\ besteval j = v /\ playedeval j = v.
Proof.
  intros w1 Hbest Hv Hpv.
  destruct (comment_of_ok _ v 100 (board_turn (w_board w)) Hv) as [bc Hbc].
  destruct (comment_of_ok _ v (-100) (board_turn (w_board w)) Hv) as [pc Hpc].
  eexists. unfold judge_move. rewrite search_steps. fold w1.
  unfold mbind at 1, get_bestmove at 1.
  unfold mbind at 1, with_info at 1. rewrite Hv.
  unfold mbind at 1, with_info at 1. rewrite Hpv. simpl getitem. cbv iota.
  unfold mbind at 1. rewrite score_comment_eq.
  unfold w1 at 2. rewrite searched_board. fold w1. rewrite Hbc. simpl rbind.
  unfold mbind at 1, get_bestmove at 1.
  unfold mbind at 1.
  destruct (decide (played = w_bestmove w1)) as [_|Hne]; [|contradiction].
  unfold mret at 1.
  unfold mbind at 1. rewrite score_comment_eq.
  unfold w1 at 2. rewrite searched_board. fold w1. rewrite Hpc. simpl rbind.
  unfold mret. split; [reflexivity|]. split; reflexivity.
Qed.

(** X7.  The judgment [judge_move] returns has both comments set, so that
    [add_annotation] finds the keys it reads. *)
Lemma judge_move_comments_set (played : option Move) (depth : Z) (w : World)
    (j : Judgment) (w' : World) :
  judge_move played depth w = Ok (j, w') ->
  exists bc pc, bestcomment j = Some bc /\ playedcomment j = Some pc.
Proof.
  intros H.
  destruct (judge_move_cases _ _ _ _ _ H)
    as (line & bc & pc & Hbe & _ & Hbc & Hpc & Hj & Hcase).
  destruct (comment_of_ok _ _ 100 (board_turn (w_board w)) Hbe) as [bc' Hbc'].
  assert (Hpe : exists v, eval_numeric (w_info w') = Ok v).
  { destruct Hcase as [(_ & _ & ->)|(_ & m & e & _ & _ & _ & _ & _ & He)]; eauto. }
  destruct Hpe as [v Hv].
  destruct (comment_of_ok _ _ (-100) (board_turn (w_board w)) Hv) as [pc' Hpc'].
  exists bc', pc'. rewrite Hj. simpl. split; congruence.
Qed.

(** The world after a search, field by field: the engine's new state and
    its reply are those of one call of [engine_search] on [b]. *)
Lemma searched_eq (b : Board) (depth : Z) (w : World) :
  searched b depth w =
    {| w_board := w_board w;
       w_engine := fst (engine_search (w_engine w) b depth);
       w_position := b;
       w_bestmove := reply_bestmove (snd (engine_search (w_engine w) b depth));
       w_info := reply_info (snd (engine_search (w_engine w) b depth));
       w_searches := w_searches w ++ [(b, depth)] |}.
Proof. unfold searched. now destruct (engine_search _ _ _). Qed.

(** C2.  When the played move is the best move the engine reports for the
    position, a call of [judge_move] that returns has run one search and no
    other: the engine is left in the state that one call of [engine_search]
    on the caller's board gives, the info handler and [engine.bestmove] hold
    the reply of that call, the board is untouched and the list of searches
    has the one new entry.  The judgment has the engine's best move, the
    evaluation [eval_numeric] reads off that reply as [besteval], and
    [playedeval = besteval].  The call does return, with that judgment and
    that world, when the reply has a score and a variation. *)
Theorem judge_move_best_one_search (played : option Move) (depth : Z) (w : World) :
  let r := engine_search (w_engine w) (w_board w) depth in
  let w1 := {| w_board := w_board w;
               w_engine := fst r;
               w_position := w_board w;
               w_bestmove := reply_bestmove (snd r);
               w_info := reply_info (snd r);
               w_searches := w_searches w ++ [(w_board w, depth)] |} in
  played = reply_bestmove (snd r) ->
  (forall j w', judge_move played depth w = Ok (j, w') ->
     w' = w1
     /\ w' = searched (w_board w) depth w
     /\ bestmove j = reply_bestmove (snd r)
     /\ eval_numeric (reply_info (snd r)) = Ok (besteval j)
     /\ info_pv (reply_info (snd r)) = Some (pv j)
     /\ playedeval j = besteval j)
  /\ (forall v line,
        eval_numeric (reply_info (snd r)) = Ok v ->
        info_pv (reply_info (snd r)) = Some line ->
        exists j, judge_move played depth w = Ok (j, w1)
                  /\ bestmove j = reply_bestmove (snd r)
                  /\ besteval j = v /\ playedeval j = v /\ pv j = line).
Proof.
  intros r w1 Hbest.
  assert (Hw1 : searched (w_board w) depth w = w1) by apply searched_eq.
  assert (Hbest' : played = w_bestmove (searched (w_board w) depth w)).
  { rewrite Hw1. exact Hbest. }
  assert (Hone : forall j w', judge_move played depth w = Ok (j, w') ->
     w' = w1
     /\ w' = searched (w_board w) depth w
     /\ bestmove j = reply_bestmove (snd r)
     /\ eval_numeric (reply_info (snd r)) = Ok (besteval j)
     /\ info_pv (reply_info (snd r)) = Some (pv j)
     /\ playedeval j = besteval j).
  { intros j w' H.
    destruct (judge_move_cases _ _ _ _ _ H)
      as (line & bc & pc & Hbe & Hpv & _ & _ & Hj & [(_ & He & ->)|(Hne & _)]);
      [|contradiction].
    rewrite Hw1 in Hbe, Hpv, Hj.
    split; [exact Hw1|]. split; [reflexivity|].
    split; [rewrite Hj; reflexivity|].
    split; [exact Hbe|].
    split; [rewrite Hj; exact Hpv|exact He]. }
  split; [exact Hone|].
  intros v line Hv Hpv.
  destruct (judge_move_best_returns played depth w v line Hbest') as (j & Hj & Hb & Hp).
  - rewrite Hw1. exact Hv.
  - rewrite Hw1. exact Hpv.
  - rewrite Hw1 in Hj. exists j.
    destruct (Hone j w1 Hj) as (_ & _ & Hbm & _ & Hl & _).
    split; [exact Hj|]. split; [exact Hbm|]. split; [exact Hb|].
    split; [exact Hp|]. rewrite Hpv in Hl. now injection Hl.
Qed.

(** C7.  A call of [judge_move] that returns leaves the board as it found
    it, move stack included; when the played move is not the engine's best
    move, the second search ran on the board with the played move pushed. *)
Theorem judge_move_restores_board (played : option Move) (depth : Z)
    (w : World) (j : Judgment) (w' : World) :
  judge_move played depth w = Ok (j, w') ->
  w_board w' = w_board w
  /\ move_stack (w_board w') = move_stack (w_board w)
  /\ (played <> bestmove j ->
      exists m, played = Some m
                /\ w_searches w' =
                     w_searches w ++ [(w_board w, depth);
                                      (board_push m (w_board w), depth)]).
Proof.
  intros H.
  destruct (judge_move_cases _ _ _ _ _ H)
    as (line & bc & pc & _ & _ & _ & _ & Hj & Hcase).
  assert (Hbm : bestmove j = w_bestmove (searched (w_board w) depth w)).
  { rewrite Hj. reflexivity. }
  destruct Hcase as [(Heq & _ & ->)|(Hne & m & e & -> & _ & _ & Hb & Hs & _)].
  - rewrite searched_board. repeat split. intros Hne. congruence.
  - rewrite Hb. repeat split. intros _. eauto.
Qed.

(** C8.  Without a mate score and without a centipawn score [eval_numeric]
    returns no number: it raises, [KeyError] when the handler holds no score
    at all and [UnboundLocalError] when the score has neither field; and a
    call of [judge_move] whose first search leaves such a handler raises
    too. *)
Theorem eval_numeric_needs_score (h : InfoHandler) :
  (forall s, info_score h = Some s -> cp s = None /\ mate s = None) ->
  (forall v, eval_numeric h <> Ok v)
  /\ eval_numeric h =
       Raise (match info_score h with
              | Some _ => UnboundLocalError
              | None => KeyError
              end)
  /\ (forall played depth w,
        w_info (searched (w_board w) depth w) = h ->
        exists e, judge_move played depth w = Raise e).
Proof.
  intros Hno.
  assert (He : eval_numeric h =
               Raise (match info_score h with
              | Some _ => UnboundLocalError
              | None => KeyError
              end)).
  { unfold eval_numeric. destruct (info_score h) as [sc|]; [|reflexivity].
    destruct (Hno sc eq_refl) as [Hc Hm]. simpl. now rewrite Hm, Hc. }
  split; [|split].
  - intros v. rewrite He. discriminate.
  - exact He.
  - intros played depth w Hw.
    destruct (judge_move played depth w) as [[j w']|e] eqn:Hj; [|eauto].
    destruct (judge_move_cases _ _ _ _ _ Hj) as (_ & _ & _ & Hv & _).
    rewrite Hw, He in Hv. discriminate.
Qed.

(** C10.  When the played move is the engine's best move and the search
    gave the centipawn score [c], the played move's comment is
    [eval_absolute(c / -100, board.turn)] while the best move's comment is
    [eval_absolute(c / 100, board.turn)], and the two evaluations are
    equal. *)
Theorem judge_move_best_comment (played : option Move) (depth : Z) (w : World)
    (j : Judgment) (w' : World) (s : Score) (c : Z) :
  let w1 := searched (w_board w) depth w in
  judge_move played depth w = Ok (j, w') ->
  played = w_bestmove w1 ->
  info_score (w_info w1) = Some s -> mate s = None -> cp s = Some c ->
  playedcomment j =
    Some (eval_absolute (truediv c (-100)) (board_turn (w_board w)))
  /\ bestcomment j =
       Some (eval_absolute (truediv c 100) (board_turn (w_board w)))
  /\ playedeval j = besteval j.
Proof.
  intros w1 H Hbest Hs Hm Hc.
  destruct (judge_move_cases _ _ _ _ _ H)
    as (line & bc & pc & _ & _ & Hbc & Hpc & Hj & [(_ & He & ->)|(Hne & _)]);
    [|contradiction].
  fold w1 in Hbc, Hpc.
  unfold comment_of in Hbc, Hpc. rewrite Hs in Hbc, Hpc. simpl in Hbc, Hpc.
  rewrite Hm, Hc in Hbc, Hpc.
  injection Hbc as <-. injection Hpc as <-.
  rewrite Hj. simpl. repeat split. rewrite Hj in He. exact He.
Qed.

(** ** The annotation inserter *)

(** The moves the loop of [add_annotation] inserts: a move is skipped when
    it is the move of the node the loop stands on. *)
Fixpoint count_added (last : option Move) (moves : list Move) : nat :=
  match moves with
  | [] => O
  | m :: rest =>
      if decide (last <> Some m) then S (count_added (Some m) rest)
      else count_added last rest
  end.

Lemma count_added_le (moves : list Move) :
  forall last, (count_added last moves <= length moves)%nat.
Proof.
  induction moves as [|m rest IH]; intros last; simpl; [lia|].
  destruct (decide (last <> Some m)).
  - specialize (IH (Some m)). lia.
  - specialize (IH last). lia.
Qed.

(** With a negative bound the slice drops moves from the end, as Python's
    does: [-1 // 2] is [-1]. *)
Example slice_to_negative :
  slice_to [1%nat; 2%nat; 3%nat] (-1 / 2) = [1%nat; 2%nat].
Proof. reflexivity. Qed.

Lemma slice_to_length {A} (l : list A) (k : Z) :
  0 <= k -> Z.of_nat (length (slice_to l k)) <= k.
Proof.
  intros Hk. unfold slice_to.
  destruct (Z.leb_spec 0 k); [|lia].
  rewrite length_take. lia.
Qed.

Section TreeLemmas.

Variable t : Tree.

Lemma node_at_lookup (i : nat) (n : GameNode) :
  t !! i = Some n -> node_at t i = Ok n.
Proof. intros H. unfold node_at. now rewrite H. Qed.

Lemma set_comment_length (i : nat) (c : string) :
  length (set_comment t i c) = length t.
Proof. apply length_alter. Qed.

Lemma set_comment_variations (i k : nat) (c : string) :
  variations <$> set_comment t i c !! k = variations <$> t !! k.
Proof.
  unfold set_comment. destruct (decide (i = k)) as [->|Hne].
  - rewrite list_lookup_alter_eq. now destruct (t !! k).
  - now rewrite list_lookup_alter_ne.
Qed.

Lemma set_comment_move (i k : nat) (c : string) :
  move <$> set_comment t i c !! k = move <$> t !! k.
Proof.
  unfold set_comment. destruct (decide (i = k)) as [->|Hne].
  - rewrite list_lookup_alter_eq. now destruct (t !! k).
  - now rewrite list_lookup_alter_ne.
Qed.

Lemma set_comment_parent (i k : nat) (c : string) :
  parent <$> set_comment t i c !! k = parent <$> t !! k.
Proof.
  unfold set_comment. destruct (decide (i = k)) as [->|Hne].
  - rewrite list_lookup_alter_eq. now destruct (t !! k).
  - now rewrite list_lookup_alter_ne.
Qed.

Lemma set_nags_length (i : nat) (g : list NAG) :
  length (set_nags t i g) = length t.
Proof. apply length_alter. Qed.

Lemma set_nags_variations (i k : nat) (g : list NAG) :
  variations <$> set_nags t i g !! k = variations <$> t !! k.
Proof.
  unfold set_nags. destruct (decide (i = k)) as [->|Hne].
  - rewrite list_lookup_alter_eq. now destruct (t !! k).
  - now rewrite list_lookup_alter_ne.
Qed.

Lemma set_nags_move (i k : nat) (g : list NAG) :
  move <$> set_nags t i g !! k = move <$> t !! k.
Proof.
  unfold set_nags. destruct (decide (i = k)) as [->|Hne].
  - rewrite list_lookup_alter_eq. now destruct (t !! k).
  - now rewrite list_lookup_alter_ne.
Qed.

Lemma set_nags_parent (i k : nat) (g : list NAG) :
  parent <$> set_nags t i g !! k = parent <$> t !! k.
Proof.
  unfold set_nags. destruct (decide (i = k)) as [->|Hne].
  - rewrite list_lookup_alter_eq. now destruct (t !! k).
  - now rewrite list_lookup_alter_ne.
Qed.

Lemma set_nags_nags (i : nat) (g : list NAG) :
  (i < length t)%nat -> nags <$> set_nags t i g !! i = Some g.
Proof.
  intros Hi. unfold set_nags. rewrite list_lookup_alter_eq.
  destruct (lookup_lt_is_Some_2 t i Hi) as [n ->]. reflexivity.
Qed.

Lemma set_variations_length (i : nat) (vs : list nat) :
  length (set_variations t i vs) = length t.
Proof. apply length_alter. Qed.

Lemma set_variations_other (i k : nat) (vs : list nat) :
  i <> k -> set_variations t i vs !! k = t !! k.
Proof. intros Hne. unfold set_variations. now rewrite list_lookup_alter_ne. Qed.

Lemma set_variations_variations (i : nat) (vs : list nat) :
  (i < length t)%nat -> variations <$> set_variations t i vs !! i = Some vs.
Proof.
  intros Hi. unfold set_variations. rewrite list_lookup_alter_eq.
  destruct (lookup_lt_is_Some_2 t i Hi) as [n ->]. reflexivity.
Qed.

Lemma set_variations_move (i k : nat) (vs : list nat) :
  move <$> set_variations t i vs !! k = move <$> t !! k.
Proof.
  unfold set_variations. destruct (decide (i = k)) as [->|Hne].
  - rewrite list_lookup_alter_eq. now destruct (t !! k).
  - now rewrite list_lookup_alter_ne.
Qed.

Lemma set_variations_parent (i k : nat) (vs : list nat) :
  parent <$> set_variations t i vs !! k = parent <$> t !! k.
Proof.
  unfold set_variations. destruct (decide (i = k)) as [->|Hne].
  - rewrite list_lookup_alter_eq. now destruct (t !! k).
  - now rewrite list_lookup_alter_ne.
Qed.

Lemma lookup_snoc_old (c : GameNode) (i : nat) :
  (i < length t)%nat -> (t ++ [c]) !! i = t !! i.
Proof. apply lookup_app_l. Qed.

Lemma lookup_snoc_new (c : GameNode) : (t ++ [c]) !! length t = Some c.
Proof. now apply list_lookup_middle. Qed.

Lemma variation_first (p v : nat) (vs : list nat) (m : option Move) :
  variations <$> t !! p = Some (v :: vs) ->
  move <$> t !! v = Some m ->
  variation t p m = Ok v.
Proof.
  intros Hp Hv. unfold variation, node_at.
  destruct (t !! p) as [pn|]; [|discriminate].
  simpl in Hp. injection Hp as Hp. simpl. rewrite Hp. simpl.
  unfold has_move. rewrite bool_decide_eq_true_2 by exact Hv. reflexivity.
Qed.

Lemma demote_first (p v : nat) (vs : list nat) (m : option Move) :
  variations <$> t !! p = Some (v :: vs) ->
  move <$> t !! v = Some m ->
  demote t p m = Ok (set_variations t p (swap_next (v :: vs) 0)).
Proof.
  intros Hp Hv. unfold demote. rewrite (variation_first p v vs m Hp Hv).
  simpl. unfold node_at.
  destruct (t !! p) as [pn|]; [|discriminate].
  simpl in Hp. injection Hp as Hp. simpl. rewrite Hp. simpl.
  destruct (decide (v = v)); [reflexivity|contradiction].
Qed.

Lemma add_main_variation_eq (p : nat) (pn : GameNode) (m : option Move) :
  t !! p = Some pn ->
  add_main_variation t p m =
    Ok (set_variations t p (length t :: variations pn)
          ++ [{| parent := Some p; move := m; comment := "";
                 nags := []; variations := [] |}]).
Proof.
  intros Hp. unfold add_main_variation. now rewrite (node_at_lookup p pn Hp).
Qed.

End TreeLemmas.

Lemma grow_length (t : Tree) (v : nat) (vs : list nat) (c : GameNode) :
  length (set_variations t v vs ++ [c]) = S (length t).
Proof. rewrite length_app, set_variations_length. simpl. lia. Qed.

Lemma grow_lookup_new (t : Tree) (v : nat) (vs : list nat) (c : GameNode) :
  (set_variations t v vs ++ [c]) !! length t = Some c.
Proof.
  rewrite <- (set_variations_length t v vs). apply lookup_snoc_new.
Qed.

Lemma grow_lookup_old (t : Tree) (v : nat) (vs : list nat) (c : GameNode) (i : nat) :
  (i < length t)%nat ->
  (set_variations t v vs ++ [c]) !! i = set_variations t v vs !! i.
Proof.
  intros Hi. apply lookup_snoc_old. now rewrite set_variations_length.
Qed.

(** The loop of [add_annotation], started on the last node of the arena:
    it appends [count_added] nodes and leaves the nodes before the one it
    started on as they were. *)
Lemma add_pv_spec (moves : list Move) :
  forall (t : Tree) (v : nat) (last : option Move),
    S v = length t ->
    move <$> t !! v = Some last ->
    exists t' v',
      add_pv moves t v = Ok (t', v')
      /\ length t' = (length t + count_added last moves)%nat
      /\ S v' = length t'
      /\ (forall i, (i < v)%nat -> t' !! i = t !! i)
      /\ move <$> t' !! v = Some last
      /\ parent <$> t' !! v = parent <$> t !! v.
Proof.
  induction moves as [|m rest IH]; intros t v last Hlast Hmove.
  - exists t, v. simpl. repeat split; auto with lia.
  - destruct (t !! v) as [vn|] eqn:Hv; [|discriminate].
    simpl in Hmove. injection Hmove as Hmove.
    cbn [add_pv count_added]. rewrite (node_at_lookup t v vn Hv).
    cbn [rbind]. rewrite Hmove.
    destruct (decide (last <> Some m)) as [Hne|Heq].
    + rewrite (add_main_variation_eq t v vn (Some m) Hv). cbn [rbind].
      set (child := {| parent := Some v; move := Some m; comment := "";
                       nags := []; variations := [] |}).
      set (t1 := set_variations t v (length t :: variations vn) ++ [child]).
      assert (Hvar : variation t1 v (Some m) = Ok (length t)).
      { apply variation_first with (vs := variations vn).
        - unfold t1. rewrite grow_lookup_old by lia.
          apply set_variations_variations. lia.
        - unfold t1. rewrite grow_lookup_new. reflexivity. }
      rewrite Hvar. cbn [rbind].
      destruct (IH t1 (length t) (Some m)) as (t' & v' & Hrun & Hlen & Hv' & Hold & Hm & Hp).
      { unfold t1. now rewrite grow_length. }
      { unfold t1. rewrite grow_lookup_new. reflexivity. }
      exists t', v'. split; [exact Hrun|].
      assert (Hlt : (v < length t)%nat) by lia.
      assert (Hat : t' !! v = set_variations t v (length t :: variations vn) !! v).
      { rewrite (Hold v Hlt). unfold t1. now apply grow_lookup_old. }
      repeat split.
      * rewrite Hlen. unfold t1. rewrite grow_length. lia.
      * exact Hv'.
      * intros i Hi. rewrite (Hold i) by lia. unfold t1.
        rewrite grow_lookup_old by lia. apply set_variations_other. lia.
      * rewrite Hat, set_variations_move, Hv. simpl. now rewrite Hmove.
      * rewrite Hat, set_variations_parent, Hv. reflexivity.
    + destruct (IH t v last Hlast) as (t' & v' & Hrun & Hrest).
      { rewrite Hv. simpl. now rewrite Hmove. }
      exists t', v'. rewrite Hv in Hrest. split; [exact Hrun | exact Hrest].
Qed.

(** C3.  On a node with a parent, with the comments of the judgment set
    and a search depth that is not negative, [add_annotation] returns; it
    adds one node for the best move, a child of the parent, and below it at
    most [searchdepth // 2] nodes for moves of the variation, a move being
    skipped when it is the move of the node just inserted.  The inserted
    child ends up one place below the head of the parent's variations: when
    the node annotated was the parent's main child before, it is the main
    child again, the inserted child coming second, and it keeps its move. *)
Theorem add_annotation_branch (node prev : nat) (j : Judgment) (depth : Z)
    (t : Tree) (n pn : GameNode) (bc : string) :
  t !! node = Some n ->
  parent n = Some prev ->
  t !! prev = Some pn ->
  bestcomment j = Some bc ->
  (bestmove j <> move n -> exists pc, playedcomment j = Some pc) ->
  0 <= depth ->
  exists t' k,
    add_annotation node j depth t = Ok t'
    /\ k = count_added (bestmove j) (slice_to (pv j) (depth / 2))
    /\ Z.of_nat k <= depth / 2
    /\ length t' = (length t + 1 + k)%nat
    /\ move <$> t' !! length t = Some (bestmove j)
    /\ parent <$> t' !! length t = Some (Some prev)
    /\ variations <$> t' !! prev
       = Some (swap_next (length t :: variations pn) 0)
    /\ (forall rest, variations pn = node :: rest ->
          variations <$> t' !! prev = Some (node :: length t :: rest))
    /\ move <$> t' !! node = Some (move n)
    /\ nags <$> t' !! node = Some (get_nags j).
Proof.
  intros Hn Hpar Hp Hbc Hpc Hdepth.
  assert (Hnode : (node < length t)%nat) by (eapply lookup_lt_Some; eauto).
  assert (Hprev : (prev < length t)%nat) by (eapply lookup_lt_Some; eauto).
  unfold add_annotation. rewrite (node_at_lookup t node n Hn). cbn [rbind].
  (* the comment of the played move *)
  assert (H0 : exists t0,
             (if decide (bestmove j <> move n)
              then rbind (getitem (playedcomment j))
                     (fun c => Ok (set_comment t node c))
              else Ok t) = Ok t0
             /\ length t0 = length t
             /\ (forall i, variations <$> t0 !! i = variations <$> t !! i)
             /\ (forall i, move <$> t0 !! i = move <$> t !! i)).
  { destruct (decide (bestmove j <> move n)) as [Hne|_].
    - destruct (Hpc Hne) as [pc ->]. simpl. eexists. split; [reflexivity|].
      split; [apply set_comment_length|].
      split; intros i; [apply set_comment_variations | apply set_comment_move].
    - exists t. auto. }
  destruct H0 as (t0 & -> & Hlen0 & Hvar0 & Hmove0). cbn [rbind].
  rewrite Hpar. cbn [deref rbind].
  assert (Hp0 : exists pn0, t0 !! prev = Some pn0 /\ variations pn0 = variations pn).
  { specialize (Hvar0 prev). rewrite Hp in Hvar0.
    destruct (t0 !! prev) as [pn0|]; [|discriminate].
    injection Hvar0 as Hvar0. eauto. }
  destruct Hp0 as (pn0 & Hp0 & Hvs0).
  (* the branch of the best move *)
  rewrite (add_main_variation_eq t0 prev pn0 (bestmove j) Hp0). cbn [rbind].
  rewrite Hvs0, Hlen0.
  set (new := length t).
  set (child := {| parent := Some prev; move := bestmove j; comment := "";
                   nags := []; variations := [] |}).
  set (t2 := set_variations t0 prev (new :: variations pn) ++ [child]).
  assert (Hold2 : forall i, (i < new)%nat ->
            t2 !! i = set_variations t0 prev (new :: variations pn) !! i).
  { intros i Hi. unfold t2. apply grow_lookup_old. now rewrite Hlen0. }
  assert (Hnew2 : t2 !! new = Some child).
  { unfold t2, new. rewrite <- Hlen0. apply grow_lookup_new. }
  assert (Hvar2 : variations <$> t2 !! prev = Some (new :: variations pn)).
  { rewrite Hold2 by exact Hprev. apply set_variations_variations.
    now rewrite Hlen0. }
  rewrite (variation_first t2 prev new (variations pn) (bestmove j) Hvar2)
    by (now rewrite Hnew2).
  cbn [rbind].
  (* the moves of the variation *)
  destruct (add_pv_spec (slice_to (pv j) (depth / 2)) t2 new (bestmove j))
    as (t3 & v3 & -> & Hlen3 & Hv3 & Hold3 & Hm3 & Hp3).
  { unfold t2. rewrite grow_length, Hlen0. reflexivity. }
  { now rewrite Hnew2. }
  cbn [rbind]. rewrite Hbc. cbn [getitem rbind].
  set (k := count_added (bestmove j) (slice_to (pv j) (depth / 2))) in *.
  assert (Hlen2 : length t2 = S new).
  { unfold t2. rewrite grow_length, Hlen0. reflexivity. }
  set (t4 := set_comment t3 v3 bc).
  assert (Hvar4 : variations <$> t4 !! prev = Some (new :: variations pn)).
  { unfold t4. rewrite set_comment_variations, (Hold3 prev Hprev). exact Hvar2. }
  assert (Hm4 : move <$> t4 !! new = Some (bestmove j)).
  { unfold t4. now rewrite set_comment_move. }
  rewrite (demote_first t4 prev new (variations pn) (bestmove j) Hvar4 Hm4).
  cbn [rbind].
  set (t5 := set_variations t4 prev (swap_next (new :: variations pn) 0)).
  assert (Hlen5 : length t5 = (new + 1 + k)%nat).
  { unfold t5, t4. rewrite set_variations_length, set_comment_length, Hlen3, Hlen2.
    lia. }
  assert (Hvar5 : variations <$> set_nags t5 node (get_nags j) !! prev
                  = Some (swap_next (new :: variations pn) 0)).
  { rewrite set_nags_variations. unfold t5. apply set_variations_variations.
    unfold t4. rewrite set_comment_length, Hlen3, Hlen2. lia. }
  exists (set_nags t5 node (get_nags j)), k.
  split; [reflexivity|]. split; [reflexivity|]. split.
  { pose proof (count_added_le (slice_to (pv j) (depth / 2)) (bestmove j)).
    pose proof (slice_to_length (pv j) (depth / 2)).
    assert (0 <= depth / 2) by (apply Z.div_pos; lia).
    unfold k. lia. }
  split; [now rewrite set_nags_length|].
  split.
  { unfold t5. now rewrite set_nags_move, set_variations_move. }
  split.
  { unfold t5, t4.
    rewrite set_nags_parent, set_variations_parent, set_comment_parent, Hp3, Hnew2.
    reflexivity. }
  split; [exact Hvar5|].
  split.
  { intros rest Hrest. rewrite Hvar5, Hrest. reflexivity. }
  split.
  { unfold t5, t4.
    rewrite set_nags_move, set_variations_move, set_comment_move.
    rewrite (Hold3 node Hnode), (Hold2 node Hnode), set_variations_move.
    now rewrite Hmove0, Hn. }
  apply set_nags_nags. rewrite Hlen5. unfold new. lia.
Qed.

(** ** The walk over the game *)

Lemma needs_annotation_spec (j : Judgment) :
  needs_annotation j = true <-> playedeval j - besteval j < -50.
Proof. unfold needs_annotation. apply Z.ltb_lt. Qed.

(** On a final node whose position is not game over, the final step judges
    the move and calls [add_annotation] whatever the judgment says: it
    returns when the two calls do. *)
Lemma analyze_final_annotates (fuel : nat) (start : Board) (depth : Z)
    (node prev : nat) (t : Tree) (w : World) (n : GameNode) (b pb : Board)
    (j : Judgment) (w1 : World) (t1 : Tree) :
  node_board fuel start t node = Ok b ->
  is_game_over rules b = false ->
  t !! node = Some n ->
  parent n = Some prev ->
  node_board fuel start t prev = Ok pb ->
  judge_on pb (move n) depth w = Ok (j, w1) ->
  add_annotation node j depth t = Ok t1 ->
  analyze_final fuel start depth node t w
  = Ok (t1, w1, [Judged node j; Annotated node j]).
Proof.
  intros Hb Hover Hn Hpar Hpb Hj Hadd. unfold analyze_final.
  rewrite Hb. cbn [rbind]. rewrite Hover.
  rewrite (node_at_lookup t node n Hn). cbn [rbind].
  rewrite Hpar. cbn [deref rbind]. rewrite Hpb. cbn [rbind].
  rewrite Hj. cbn [rbind]. rewrite Hadd. reflexivity.
Qed.

(** * Further properties *)

(** ** The classifier *)

(** X1.  [get_nags] returns at most one glyph, and which one is decided by
    the delta and the two overrides: a blunder below [-300], a mistake from
    [-300] to below [-150], a dubious move from [-150] to below [-75], each
    only when neither override applies, and no glyph otherwise. *)
Theorem get_nags_classes (j : Judgment) :
  let delta := playedeval j - besteval j in
  let decided := playedeval j > 800 \/ besteval j < -800 in
  (get_nags j = [NAG_BLUNDER] <-> delta < -300 /\ ~ decided)
  /\ (get_nags j = [NAG_MISTAKE] <-> (-300 <= delta < -150) /\ ~ decided)
  /\ (get_nags j = [NAG_DUBIOUS_MOVE] <-> (-150 <= delta < -75) /\ ~ decided)
  /\ (get_nags j = [] <-> -75 <= delta \/ decided)
  /\ (length (get_nags j) <= 1)%nat.
Proof.
  cbv zeta. unfold get_nags.
  destruct (Z.ltb_spec (besteval j) (-800));
    destruct (Z.gtb_spec (playedeval j) 800);
    destruct (Z.ltb_spec (playedeval j - besteval j) (-300));
    destruct (Z.ltb_spec (playedeval j - besteval j) (-150));
    destruct (Z.ltb_spec (playedeval j - besteval j) (-75));
    simpl; repeat split; intros; try discriminate; try lia; try tauto.
Qed.

(** X2.  A move that gets a glyph is a move that needs an annotation: the
    glyph thresholds lie below the threshold of [needs_annotation]. *)
Theorem glyph_needs_annotation (j : Judgment) :
  get_nags j <> [] -> needs_annotation j = true.
Proof.
  intros Hne. apply needs_annotation_spec.
  destruct (Z.lt_ge_cases (playedeval j - besteval j) (-75)) as [Hlt|Hge];
    [lia|].
  exfalso. apply Hne. unfold get_nags.
  destruct (Z.ltb_spec (playedeval j - besteval j) (-300)); [lia|].
  destruct (Z.ltb_spec (playedeval j - besteval j) (-150)); [lia|].
  destruct (Z.ltb_spec (playedeval j - besteval j) (-75)); [lia|].
  destruct (playedeval j >? 800), (besteval j <? -800); reflexivity.
Qed.

(** ** The normalizer *)

(** X3.  On a score with a mate field [eval_numeric] ignores the centipawn
    field.  A mate in [m] plies for the side to move, [1 <= m < 10000],
    gets a value from [1] to [9999]; a mate score [m <= 0] gets a value
    below zero. *)
Theorem eval_numeric_mate_sign (h : InfoHandler) (s : Score) (m : Z) :
  info_score h = Some s ->
  mate s = Some m ->
  exists v,
    eval_numeric h = Ok v
    /\ eval_numeric {| info_score := Some {| cp := None; mate := Some m |};
                       info_pv := info_pv h |} = Ok v
    /\ (1 <= m < 10000 -> 1 <= v <= 9999)
    /\ (m <= 0 -> v < 0).
Proof.
  intros Hs Hm. rewrite (eval_numeric_mate h s m Hs Hm).
  eexists. split; [reflexivity|]. split.
  - unfold eval_numeric. simpl. now destruct (m >=? 1).
  - unfold max_score. destruct (Z.geb_spec m 1); split; intros; lia.
Qed.

(** ** The move judge *)

Lemma searched_info (b : Board) (depth : Z) (w : World) :
  w_info (searched b depth w)
  = reply_info (snd (engine_search (w_engine w) b depth)).
Proof. unfold searched. now destruct (engine_search _ _ _). Qed.

Lemma searched_bestmove (b : Board) (depth : Z) (w : World) :
  w_bestmove (searched b depth w)
  = reply_bestmove (snd (engine_search (w_engine w) b depth)).
Proof. unfold searched. now destruct (engine_search _ _ _). Qed.

Lemma searched_engine (b : Board) (depth : Z) (w : World) :
  w_engine (searched b depth w) = fst (engine_search (w_engine w) b depth).
Proof. unfold searched. now destruct (engine_search _ _ _). Qed.

(** X4.  Whatever move was played, the best move, its evaluation and the
    variation of the judgment are those of the search of the position
    itself, and the best move's comment is made from that search's score
    with the side to move at the position. *)
Theorem judge_move_first_search (played : option Move) (depth : Z) (w : World)
    (j : Judgment) (w' : World) :
  judge_move played depth w = Ok (j, w') ->
  let r := snd (engine_search (w_engine w) (w_board w) depth) in
  bestmove j = reply_bestmove r
  /\ eval_numeric (reply_info r) = Ok (besteval j)
  /\ info_pv (reply_info r) = Some (pv j)
  /\ comment_of (reply_info r) 100 (board_turn (w_board w))
     = Ok (bestcomment j).
Proof.
  intros H r.
  destruct (judge_move_cases _ _ _ _ _ H)
    as (line & bc & pc & Hbe & Hpv & Hbc & _ & Hj & _).
  rewrite searched_info in Hbe, Hpv, Hbc. fold r in Hbe, Hpv, Hbc.
  assert (Hb : bestmove j = reply_bestmove r).
  { rewrite Hj. simpl. apply searched_bestmove. }
  assert (Hl : pv j = line) by (rewrite Hj; reflexivity).
  assert (Hc : bestcomment j = bc) by (rewrite Hj; reflexivity).
  rewrite Hl, Hc. auto.
Qed.

(** The world after the two searches [judge_move] runs when the played move
    [m] is not the engine's best move. *)
Definition searched_twice (m : Move) (depth : Z) (w : World) : World :=
  let r1 := engine_search (w_engine w) (w_board w) depth in
  let r2 := engine_search (fst r1) (board_push m (w_board w)) depth in
  {| w_board := w_board w;
     w_engine := fst r2;
     w_position := board_push m (w_board w);
     w_bestmove := reply_bestmove (snd r2);
     w_info := reply_info (snd r2);
     w_searches := w_searches w ++ [(w_board w, depth);
                                    (board_push m (w_board w), depth)] |}.

(** X5.  When the played move is not the engine's best move, [judge_move]
    runs a second search on the position after the played move, from the
    engine state the first search left, and takes the negation of its
    numeric value as the played move's evaluation; the played move's comment
    is made from the second search's score, with [-100] as divisor and the
    side to move at the original position.  Afterwards the engine holds the
    second search's position, best move and info. *)
Theorem judge_move_second_search (played : option Move) (depth : Z) (w : World)
    (j : Judgment) (w' : World) :
  judge_move played depth w = Ok (j, w') ->
  played <> reply_bestmove (snd (engine_search (w_engine w) (w_board w) depth)) ->
  exists m e,
    played = Some m
    /\ w' = searched_twice m depth w
    /\ eval_numeric (w_info w') = Ok e
    /\ playedeval j = - e
    /\ comment_of (w_info w') (-100) (board_turn (w_board w))
       = Ok (playedcomment j).
Proof.
  intros H Hne. rewrite <- searched_bestmove in Hne.
  set (b := w_board w) in *. set (w1 := searched b depth w) in *.
  unfold judge_move in H. rewrite search_steps in H. fold b w1 in H.
  assert (Hb1 : w_board w1 = b) by apply searched_board.
  unfold mbind at 1, get_bestmove at 1 in H.
  unfold mbind at 1, with_info at 1 in H.
  destruct (eval_numeric (w_info w1)) as [be|]; [|discriminate].
  unfold mbind at 1, with_info at 1 in H.
  destruct (info_pv (w_info w1)) as [line|]; simpl in H; [|discriminate].
  unfold mbind at 1 in H. rewrite score_comment_eq in H. rewrite Hb1 in H.
  destruct (comment_of (w_info w1) 100 (board_turn b)) as [bc|];
    simpl in H; [|discriminate].
  unfold mbind at 1, get_bestmove at 1 in H.
  unfold mbind at 1 in H.
  destruct (decide (played = w_bestmove w1)) as [Heq|_]; [contradiction|].
  destruct played as [m|]; [|discriminate].
  unfold mbind at 1, push at 1 in H.
  rewrite search_steps in H. cbn [w_board] in H. rewrite Hb1 in H.
  set (w2 := searched (board_push m b) depth _) in H.
  assert (Hw2 : w2 = {| w_board := board_push m b;
                        w_engine := w_engine (searched_twice m depth w);
                        w_position := board_push m b;
                        w_bestmove := w_bestmove (searched_twice m depth w);
                        w_info := w_info (searched_twice m depth w);
                        w_searches := w_searches (searched_twice m depth w) |}).
  { unfold w2, searched_twice, searched. fold b. cbn [w_engine w_searches].
    unfold w1, searched. fold b.
    destruct (engine_search (w_engine w) b depth) as [e1 r1]. cbn.
    destruct (engine_search e1 (board_push m b) depth) as [e2 r2]. cbn.
    now rewrite <- app_assoc. }
  unfold mbind at 1, with_info at 1 in H.
  destruct (eval_numeric (w_info w2)) as [e|] eqn:Ee; [|discriminate].
  unfold mbind at 1, pop at 1 in H.
  rewrite Hw2 in H. cbn [w_board w_engine w_position w_bestmove w_info w_searches] in H.
  rewrite board_pop_push in H.
  unfold mret at 1 in H.
  unfold mbind at 1 in H. rewrite score_comment_eq in H.
  cbn [w_board w_info] in H.
  destruct (comment_of (w_info (searched_twice m depth w)) (-100) (board_turn b))
    as [pc|] eqn:Epc; simpl in H; [|discriminate].
  unfold mret in H. injection H as <- <-.
  exists m, e. rewrite Hw2 in Ee. cbn [w_info] in Ee.
  repeat split; try assumption.
Qed.

(** X6.  When the search of the position gives a mate score [m], the best
    move's comment is ["Mate in "] followed by the absolute value of [m],
    and so is the played move's comment when the played move is the engine's
    best move. *)
Theorem judge_move_mate_comment (played : option Move) (depth : Z) (w : World)
    (j : Judgment) (w' : World) (s : Score) (m : Z) :
  judge_move played depth w = Ok (j, w') ->
  let r := snd (engine_search (w_engine w) (w_board w) depth) in
  info_score (reply_info r) = Some s ->
  mate s = Some m ->
  bestcomment j = Some ("Mate in " ++ str_of_int (Z.abs m))%string
  /\ (played = reply_bestmove r ->
      playedcomment j = Some ("Mate in " ++ str_of_int (Z.abs m))%string).
Proof.
  intros H r Hs Hm.
  destruct (judge_move_cases _ _ _ _ _ H)
    as (line & bc & pc & _ & _ & Hbc & Hpc & Hj & Hcase).
  rewrite searched_info in Hbc. fold r in Hbc.
  unfold comment_of in Hbc. rewrite Hs in Hbc. simpl in Hbc. rewrite Hm in Hbc.
  injection Hbc as <-. split.
  - rewrite Hj. reflexivity.
  - intros Hbest. unfold r in Hbest. rewrite <- searched_bestmove in Hbest.
    destruct Hcase as [(_ & _ & ->)|(Hne & _)]; [|contradiction].
    rewrite searched_info in Hpc. fold r in Hpc.
    unfold comment_of in Hpc. rewrite Hs in Hpc. simpl in Hpc. rewrite Hm in Hpc.
    injection Hpc as <-. rewrite Hj. reflexivity.
Qed.

(** X8.  A search that gives a score but no variation makes [judge_move]
    raise [KeyError], before the played move is looked at. *)
Theorem judge_move_needs_pv (played : option Move) (depth : Z) (w : World)
    (v : Z) :
  let r := snd (engine_search (w_engine w) (w_board w) depth) in
  eval_numeric (reply_info r) = Ok v ->
  info_pv (reply_info r) = None ->
  judge_move played depth w = Raise KeyError.
Proof.
  intros r Hv Hpv. unfold r in Hv, Hpv. rewrite <- searched_info in Hv, Hpv.
  unfold judge_move. rewrite search_steps.
  unfold mbind at 1, get_bestmove at 1.
  unfold mbind at 1, with_info at 1. rewrite Hv.
  unfold mbind at 1, with_info at 1. rewrite Hpv. reflexivity.
Qed.

(** ** The annotation inserter *)

(** The moves of the variation that the loop of [add_annotation] inserts,
    in order: a move is left out when it is the move of the node the loop
    stands on. *)
Fixpoint kept_moves (last : option Move) (moves : list Move) : list Move :=
  match moves with
  | [] => []
  | m :: rest =>
      if decide (last <> Some m) then m :: kept_moves (Some m) rest
      else kept_moves last rest
  end.

Lemma kept_moves_length (moves : list Move) :
  forall last, length (kept_moves last moves) = count_added last moves.
Proof.
  induction moves as [|m rest IH]; intros last; simpl; [reflexivity|].
  destruct (decide (last <> Some m)); simpl; now rewrite IH.
Qed.

(** A line of fresh nodes, one per move, each the only child of the one
    before: the first is a child of [par] and has the id [id]. *)
Fixpoint chain (par id : nat) (ms : list (option Move)) : list GameNode :=
  match ms with
  | [] => []
  | m :: rest =>
      {| parent := Some par; move := m; comment := ""; nags := [];
         variations := match rest with [] => [] | _ :: _ => [S id] end |}
      :: chain id (S id) rest
  end.

Lemma chain_length (ms : list (option Move)) :
  forall par id, length (chain par id ms) = length ms.
Proof.
  induction ms as [|m rest IH]; intros par id; simpl; [reflexivity|].
  now rewrite IH.
Qed.

Lemma set_variations_snoc (pre : Tree) (x : GameNode) (vs : list nat) :
  set_variations (pre ++ [x]) (length pre) vs
  = pre ++ [{| parent := parent x; move := move x; comment := comment x;
               nags := nags x; variations := vs |}].
Proof.
  unfold set_variations. rewrite alter_app_r_alt by lia.
  now replace (length pre - length pre)%nat with O by lia.
Qed.

(** The loop of [add_annotation], started on a fresh leaf at the end of the
    arena, turns the leaf into a line of the moves it keeps. *)
Lemma add_pv_chain (moves : list Move) :
  forall (pre : Tree) (par : nat) (mv : option Move),
    add_pv moves
      (pre ++ [{| parent := Some par; move := mv; comment := "";
                  nags := []; variations := [] |}])
      (length pre)
    = Ok (pre ++ chain par (length pre) (mv :: map Some (kept_moves mv moves)),
          (length pre + length (kept_moves mv moves))%nat).
Proof.
  induction moves as [|m rest IH]; intros pre par mv.
  - simpl. now rewrite Nat.add_0_r.
  - set (leaf := {| parent := Some par; move := mv; comment := "";
                   nags := []; variations := [] |}).
    cbn [add_pv kept_moves].
    assert (Hleaf : (pre ++ [leaf]) !! length pre = Some leaf)
      by apply lookup_snoc_new.
    rewrite (node_at_lookup _ _ _ Hleaf). cbn [rbind]. cbn [leaf move].
    destruct (decide (mv <> Some m)) as [Hne|Heq].
    + rewrite (add_main_variation_eq _ _ _ (Some m) Hleaf). cbn [rbind].
      rewrite set_variations_snoc. cbn [leaf parent move comment nags variations].
      rewrite length_app. cbn [length]. rewrite Nat.add_1_r.
      set (leaf' := {| parent := Some par; move := mv; comment := "";
                       nags := []; variations := [S (length pre)] |}).
      set (child := {| parent := Some (length pre); move := Some m;
                       comment := ""; nags := []; variations := [] |}).
      assert (Hlen : length (pre ++ [leaf']) = S (length pre)).
      { rewrite length_app. simpl. lia. }
      rewrite (variation_first ((pre ++ [leaf']) ++ [child]) (length pre)
                 (S (length pre)) [] (Some m)).
      * cbn [rbind].
        pose proof (IH (pre ++ [leaf']) (length pre) (Some m)) as IH'.
        rewrite Hlen in IH'. fold child in IH'. rewrite IH'.
        cbn [chain map]. rewrite <- app_assoc. cbn [app length].
        f_equal. f_equal. lia.
      * rewrite lookup_snoc_old by (rewrite Hlen; lia).
        now rewrite lookup_snoc_new.
      * rewrite <- Hlen. now rewrite lookup_snoc_new.
    + apply (IH pre par mv).
Qed.

(** The tree [add_annotation] returns on a node with a parent, written
    out: the played move's comment, the line of the best move appended to
    the arena, its last node commented, the parent's variations reordered,
    the glyphs. *)
Definition annotated_tree (node prev : nat) (j : Judgment) (depth : Z)
    (t : Tree) (n pn : GameNode) : Tree :=
  let t0 := if decide (bestmove j <> move n)
            then set_comment t node (default "" (playedcomment j))
            else t in
  let kept := kept_moves (bestmove j) (slice_to (pv j) (depth / 2)) in
  let new := length t in
  let line := chain prev new (bestmove j :: map Some kept) in
  let t3 := set_variations t0 prev (new :: variations pn) ++ line in
  let t4 := set_comment t3 (new + length kept) (default "" (bestcomment j)) in
  let t5 := set_variations t4 prev (swap_next (new :: variations pn) 0) in
  set_nags t5 node (get_nags j).

Lemma add_annotation_eq (node prev : nat) (j : Judgment) (depth : Z)
    (t : Tree) (n pn : GameNode) :
  t !! node = Some n ->
  parent n = Some prev ->
  t !! prev = Some pn ->
  (exists bc, bestcomment j = Some bc) ->
  (bestmove j <> move n -> exists pc, playedcomment j = Some pc) ->
  add_annotation node j depth t = Ok (annotated_tree node prev j depth t n pn).
Proof.
  intros Hn Hpar Hp [bc Hbc] Hpc.
  assert (Hprev : (prev < length t)%nat) by (eapply lookup_lt_Some; eauto).
  unfold add_annotation, annotated_tree.
  rewrite (node_at_lookup t node n Hn). cbn [rbind].
  set (t0 := if decide (bestmove j <> move n)
             then set_comment t node (default "" (playedcomment j))
             else t).
  assert (H0 : (if decide (bestmove j <> move n)
                then rbind (getitem (playedcomment j))
                       (fun c => Ok (set_comment t node c))
                else Ok t) = Ok t0).
  { unfold t0. destruct (decide (bestmove j <> move n)) as [Hne|_]; [|reflexivity].
    destruct (Hpc Hne) as [pc ->]. reflexivity. }
  rewrite H0. cbn [rbind]. rewrite Hpar. cbn [deref rbind].
  assert (Hlen0 : length t0 = length t).
  { unfold t0. destruct (decide _); [apply set_comment_length | reflexivity]. }
  assert (Hvar0 : variations <$> t0 !! prev = Some (variations pn)).
  { unfold t0. destruct (decide _); [rewrite set_comment_variations|];
      now rewrite Hp. }
  destruct (t0 !! prev) as [pn0|] eqn:Hp0; [|discriminate].
  injection Hvar0 as Hvs0.
  rewrite (add_main_variation_eq t0 prev pn0 (bestmove j) Hp0). cbn [rbind].
  rewrite Hvs0, Hlen0.
  set (pre := set_variations t0 prev (length t :: variations pn)).
  assert (Hpre : length pre = length t).
  { unfold pre. now rewrite set_variations_length. }
  rewrite (variation_first _ prev (length t) (variations pn) (bestmove j)).
  - cbn [rbind].
    pose proof (add_pv_chain (slice_to (pv j) (depth / 2)) pre prev (bestmove j))
      as Hchain.
    rewrite Hpre in Hchain. rewrite Hchain. cbn [rbind].
    rewrite Hbc. cbn [getitem rbind default].
    set (kept := kept_moves (bestmove j) (slice_to (pv j) (depth / 2))).
    set (t4 := set_comment _ _ bc).
    rewrite (demote_first t4 prev (length t) (variations pn) (bestmove j)).
    + reflexivity.
    + unfold t4. rewrite set_comment_variations.
      rewrite lookup_app_l by (rewrite Hpre; exact Hprev).
      unfold pre. apply set_variations_variations. now rewrite Hlen0.
    + unfold t4. rewrite set_comment_move.
      rewrite <- Hpre. cbn [chain]. rewrite list_lookup_middle; reflexivity.
  - rewrite lookup_app_l by (rewrite Hpre; exact Hprev).
    unfold pre. apply set_variations_variations. now rewrite Hlen0.
  - rewrite <- Hpre. now rewrite lookup_snoc_new.
Qed.

Section MoreTreeLemmas.

Variable t : Tree.

Lemma set_comment_other (i k : nat) (c : string) :
  i <> k -> set_comment t i c !! k = t !! k.
Proof. intros Hne. unfold set_comment. now rewrite list_lookup_alter_ne. Qed.

Lemma set_comment_comment (i : nat) (c : string) :
  (i < length t)%nat -> comment <$> set_comment t i c !! i = Some c.
Proof.
  intros Hi. unfold set_comment. rewrite list_lookup_alter_eq.
  destruct (lookup_lt_is_Some_2 t i Hi) as [n ->]. reflexivity.
Qed.

Lemma set_nags_other (i k : nat) (g : list NAG) :
  i <> k -> set_nags t i g !! k = t !! k.
Proof. intros Hne. unfold set_nags. now rewrite list_lookup_alter_ne. Qed.

Lemma set_nags_comment (i k : nat) (g : list NAG) :
  comment <$> set_nags t i g !! k = comment <$> t !! k.
Proof.
  unfold set_nags. destruct (decide (i = k)) as [->|Hne].
  - rewrite list_lookup_alter_eq. now destruct (t !! k).
  - now rewrite list_lookup_alter_ne.
Qed.

Lemma set_variations_comment (i k : nat) (vs : list nat) :
  comment <$> set_variations t i vs !! k = comment <$> t !! k.
Proof.
  unfold set_variations. destruct (decide (i = k)) as [->|Hne].
  - rewrite list_lookup_alter_eq. now destruct (t !! k).
  - now rewrite list_lookup_alter_ne.
Qed.

End MoreTreeLemmas.

(** The line that starts at a node: the moves down the first variations,
    and the node it ends on, which has no variation. *)
Inductive is_line (t : Tree) : nat -> list (option Move) -> nat -> Prop :=
  | line_end v m :
      move <$> t !! v = Some m ->
      variations <$> t !! v = Some [] ->
      is_line t v [m] v
  | line_step v m c others ms last :
      move <$> t !! v = Some m ->
      variations <$> t !! v = Some (c :: others) ->
      is_line t c ms last ->
      is_line t v (m :: ms) last.

Lemma chain_is_line (t : Tree) (ms : list (option Move)) :
  forall par id,
    ms <> [] ->
    (forall k, (k < length ms)%nat ->
       move <$> t !! (id + k)%nat = move <$> chain par id ms !! k
       /\ variations <$> t !! (id + k)%nat
          = variations <$> chain par id ms !! k) ->
    is_line t id ms (id + length ms - 1)%nat.
Proof.
  induction ms as [|m rest IH]; intros par id Hne Hat; [contradiction|].
  destruct (Hat O) as [Hm Hv]; [simpl; lia|].
  rewrite Nat.add_0_r in Hm, Hv. simpl in Hm, Hv.
  destruct rest as [|m2 rest].
  - simpl. replace (id + 1 - 1)%nat with id by lia. now constructor.
  - replace (id + length (m :: m2 :: rest) - 1)%nat
      with (S id + length (m2 :: rest) - 1)%nat by (simpl; lia).
    apply line_step with (c := S id) (others := []); [exact Hm | exact Hv |].
    apply (IH id (S id)); [discriminate|].
    intros k Hk. destruct (Hat (S k)) as [Hm' Hv']; [simpl in *; lia|].
    rewrite Nat.add_succ_r in Hm', Hv'. simpl in Hm', Hv'.
    split; assumption.
Qed.

(** X9.  On a node with a parent and a judgment whose comments are set,
    [add_annotation] builds the side branch as one line: it starts at the
    node inserted for the best move, spells the best move followed by the
    moves kept from the first [searchdepth // 2] moves of the variation, and
    ends on a node without variations that carries the best move's
    comment. *)
Theorem add_annotation_line (node prev : nat) (j : Judgment) (depth : Z)
    (t : Tree) (n pn : GameNode) (bc : string) :
  t !! node = Some n ->
  parent n = Some prev ->
  t !! prev = Some pn ->
  bestcomment j = Some bc ->
  (bestmove j <> move n -> exists pc, playedcomment j = Some pc) ->
  let kept := kept_moves (bestmove j) (slice_to (pv j) (depth / 2)) in
  let last := (length t + length kept)%nat in
  exists t',
    add_annotation node j depth t = Ok t'
    /\ is_line t' (length t) (bestmove j :: map Some kept) last
    /\ comment <$> t' !! last = Some bc.
Proof.
  intros Hn Hpar Hp Hbc Hpc kept last.
  assert (Hnode : (node < length t)%nat) by (eapply lookup_lt_Some; eauto).
  assert (Hprev : (prev < length t)%nat) by (eapply lookup_lt_Some; eauto).
  exists (annotated_tree node prev j depth t n pn).
  split; [apply add_annotation_eq; eauto|].
  unfold annotated_tree. fold kept. rewrite Hbc. cbn [default].
  set (t0 := if decide (bestmove j <> move n)
             then set_comment t node (default "" (playedcomment j)) else t).
  set (pre := set_variations t0 prev (length t :: variations pn)).
  set (line := chain prev (length t) (bestmove j :: map Some kept)).
  assert (Hlen0 : length t0 = length t).
  { unfold t0. destruct (decide _); [apply set_comment_length | reflexivity]. }
  assert (Hpre : length pre = length t).
  { unfold pre. now rewrite set_variations_length. }
  assert (Hline : length line = S (length kept)).
  { unfold line. rewrite chain_length. simpl. now rewrite length_map. }
  split.
  - replace last with (length t + length (bestmove j :: map Some kept) - 1)%nat
      by (unfold last; simpl; rewrite length_map; lia).
    apply (chain_is_line _ _ prev (length t)); [discriminate|].
    intros k Hk. fold line.
    assert (Hat : (pre ++ line) !! (length t + k)%nat = line !! k).
    { rewrite <- Hpre. rewrite lookup_app_r by lia.
      f_equal. lia. }
    split.
    + now rewrite set_nags_move, set_variations_move, set_comment_move, Hat.
    + rewrite set_nags_variations.
      rewrite set_variations_other by lia.
      now rewrite set_comment_variations, Hat.
  - rewrite set_nags_comment, set_variations_comment.
    apply set_comment_comment.
    rewrite length_app, Hpre, Hline. unfold last. lia.
Qed.

(** X10.  Under the same conditions [add_annotation] leaves every node of
    the tree other than the node annotated and its parent as it was, and the
    node annotated gets the played move's comment exactly when its move is
    not the engine's best move; otherwise it keeps its comment. *)
Theorem add_annotation_frame (node prev : nat) (j : Judgment) (depth : Z)
    (t : Tree) (n pn : GameNode) :
  t !! node = Some n ->
  parent n = Some prev ->
  t !! prev = Some pn ->
  (exists bc, bestcomment j = Some bc) ->
  (bestmove j <> move n -> exists pc, playedcomment j = Some pc) ->
  exists t',
    add_annotation node j depth t = Ok t'
    /\ (forall i, (i < length t)%nat -> i <> node -> i <> prev ->
          t' !! i = t !! i)
    /\ (bestmove j = move n -> comment <$> t' !! node = Some (comment n))
    /\ (bestmove j <> move n -> comment <$> t' !! node = playedcomment j).
Proof.
  intros Hn Hpar Hp Hbc Hpc.
  assert (Hnode : (node < length t)%nat) by (eapply lookup_lt_Some; eauto).
  assert (Hprev : (prev < length t)%nat) by (eapply lookup_lt_Some; eauto).
  exists (annotated_tree node prev j depth t n pn).
  split; [apply add_annotation_eq; eauto|].
  unfold annotated_tree.
  set (kept := kept_moves (bestmove j) (slice_to (pv j) (depth / 2))).
  set (t0 := if decide (bestmove j <> move n)
             then set_comment t node (default "" (playedcomment j)) else t).
  set (pre := set_variations t0 prev (length t :: variations pn)).
  assert (Hlen0 : length t0 = length t).
  { unfold t0. destruct (decide _); [apply set_comment_length | reflexivity]. }
  assert (Hpre : length pre = length t).
  { unfold pre. now rewrite set_variations_length. }
  assert (Hcomment : comment <$>
            set_nags
              (set_variations
                 (set_comment
                    (pre ++ chain prev (length t) (bestmove j :: map Some kept))
                    (length t + length kept) (default "" (bestcomment j)))
                 prev (swap_next (length t :: variations pn) 0))
              node (get_nags j) !! node
          = comment <$> t0 !! node).
  { rewrite set_nags_comment, set_variations_comment.
    rewrite set_comment_other by lia.
    rewrite lookup_app_l by (rewrite Hpre; exact Hnode).
    unfold pre. apply set_variations_comment. }
  split; [|split].
  - intros i Hi Hin Hip.
    rewrite set_nags_other by auto.
    rewrite set_variations_other by auto.
    rewrite set_comment_other by lia.
    rewrite lookup_app_l by (rewrite Hpre; exact Hi).
    unfold pre. rewrite set_variations_other by auto.
    unfold t0. destruct (decide _); [|reflexivity].
    now rewrite set_comment_other by auto.
  - intros Heq. rewrite Hcomment. unfold t0.
    destruct (decide (bestmove j <> move n)); [contradiction|].
    now rewrite Hn.
  - intros Hne. rewrite Hcomment. unfold t0.
    destruct (decide (bestmove j <> move n)); [|contradiction].
    destruct (Hpc Hne) as [pc ->]. cbn [default].
    apply set_comment_comment. exact Hnode.
Qed.

(** X11.  [add_annotation] raises when a part it needs is missing:
    [KeyError] when the node's move is not the best move and the judgment
    has no comment for the played move, and [AttributeError] when the node
    has no parent (the root), since the branch is attached to the parent. *)
Theorem add_annotation_raises (node : nat) (j : Judgment) (depth : Z)
    (t : Tree) (n : GameNode) :
  t !! node = Some n ->
  (bestmove j <> move n -> playedcomment j = None ->
   add_annotation node j depth t = Raise KeyError)
  /\ (parent n = None ->
      (bestmove j <> move n -> exists pc, playedcomment j = Some pc) ->
      add_annotation node j depth t = Raise AttributeError).
Proof.
  intros Hn. unfold add_annotation. rewrite (node_at_lookup t node n Hn).
  cbn [rbind]. split.
  - intros Hne Hnone. destruct (decide (bestmove j <> move n)); [|contradiction].
    now rewrite Hnone.
  - intros Hroot Hpc. rewrite Hroot.
    destruct (decide (bestmove j <> move n)) as [Hne|_]; [|reflexivity].
    destruct (Hpc Hne) as [pc ->]. reflexivity.
Qed.

(** A tree grown out of another: no node is lost, and every node keeps
    its parent, its move and the children it had. *)
Definition tree_extends (t t' : Tree) : Prop :=
  (length t <= length t')%nat
  /\ forall i n, t !! i = Some n ->
       exists n', t' !! i = Some n'
                  /\ parent n' = parent n
                  /\ move n' = move n
                  /\ (forall v, v ∈ variations n -> v ∈ variations n').

Lemma tree_extends_refl (t : Tree) : tree_extends t t.
Proof. split; [lia|]. intros i n Hn. exists n. auto. Qed.

Lemma tree_extends_trans (t1 t2 t3 : Tree) :
  tree_extends t1 t2 -> tree_extends t2 t3 -> tree_extends t1 t3.
Proof.
  intros [Hl12 H12] [Hl23 H23]. split; [lia|].
  intros i n Hn.
  destruct (H12 i n Hn) as (n2 & Hn2 & Hp2 & Hm2 & Hv2).
  destruct (H23 i n2 Hn2) as (n3 & Hn3 & Hp3 & Hm3 & Hv3).
  exists n3. repeat split; try congruence. auto.
Qed.

Lemma tree_extends_alter (t : Tree) (f : GameNode -> GameNode) (i : nat) :
  (forall n, parent (f n) = parent n) ->
  (forall n, move (f n) = move n) ->
  (forall n, t !! i = Some n ->
             forall v, v ∈ variations n -> v ∈ variations (f n)) ->
  tree_extends t (alter f i t).
Proof.
  intros Hp Hm Hv. split; [now rewrite length_alter|].
  intros k n Hn. destruct (decide (i = k)) as [->|Hne].
  - exists (f n). rewrite list_lookup_alter_eq, Hn. simpl.
    repeat split; auto.
  - exists n. now rewrite list_lookup_alter_ne.
Qed.

Lemma tree_extends_set_comment (t : Tree) (i : nat) (c : string) :
  tree_extends t (set_comment t i c).
Proof. apply tree_extends_alter; auto. Qed.

Lemma tree_extends_set_nags (t : Tree) (i : nat) (g : list NAG) :
  tree_extends t (set_nags t i g).
Proof. apply tree_extends_alter; auto. Qed.

Lemma tree_extends_snoc (t : Tree) (c : GameNode) : tree_extends t (t ++ [c]).
Proof.
  split; [rewrite length_app; lia|].
  intros i n Hn. exists n. split; [|auto].
  rewrite lookup_app_l; [exact Hn|]. eapply lookup_lt_Some; eauto.
Qed.

Lemma swap_next_elem (l : list nat) (i v : nat) :
  v ∈ l -> v ∈ swap_next l i.
Proof.
  intros Hv. unfold swap_next.
  destruct (l !! i) as [a|] eqn:Ha; [|exact Hv].
  destruct (l !! S i) as [b|] eqn:Hb; [|exact Hv].
  apply list_elem_of_lookup in Hv. destruct Hv as [k Hk].
  assert (Hi : (i < length l)%nat) by (eapply lookup_lt_Some; eauto).
  assert (Hsi : (S i < length l)%nat) by (eapply lookup_lt_Some; eauto).
  apply list_elem_of_lookup.
  destruct (decide (k = S i)) as [->|Hks].
  - exists i. rewrite list_lookup_insert_ne by lia.
    rewrite list_lookup_insert_eq by lia. congruence.
  - destruct (decide (k = i)) as [->|Hki].
    + exists (S i). rewrite list_lookup_insert_eq
        by (rewrite length_insert; lia). congruence.
    + exists k. rewrite list_lookup_insert_ne by lia.
      now rewrite list_lookup_insert_ne by lia.
Qed.

Lemma add_main_variation_extends (t t' : Tree) (p : nat) (m : option Move) :
  add_main_variation t p m = Ok t' -> tree_extends t t'.
Proof.
  unfold add_main_variation, node_at. intros H.
  destruct (t !! p) as [pn|] eqn:Hp; [|discriminate].
  cbn [rbind] in H. injection H as <-.
  eapply tree_extends_trans; [|apply tree_extends_snoc].
  apply tree_extends_alter; auto.
  intros n Hn v Hv. simpl. replace n with pn in Hv by congruence.
  now apply list_elem_of_further.
Qed.

Lemma demote_extends (t t' : Tree) (p : nat) (m : option Move) :
  demote t p m = Ok t' -> tree_extends t t'.
Proof.
  unfold demote. intros H.
  destruct (variation t p m) as [v|]; [|discriminate].
  cbn [rbind] in H. unfold node_at in H.
  destruct (t !! p) as [pn|] eqn:Hp; [|discriminate].
  cbn [rbind] in H.
  destruct (index_of v (variations pn)) as [i|]; [|discriminate].
  injection H as <-.
  apply tree_extends_alter; auto.
  intros n Hn u Hu. simpl. replace n with pn in Hu by congruence.
  now apply swap_next_elem.
Qed.

Lemma add_pv_extends (moves : list Move) :
  forall t v t' v', add_pv moves t v = Ok (t', v') -> tree_extends t t'.
Proof.
  induction moves as [|m rest IH]; intros t v t' v' H.
  - injection H as <- _. apply tree_extends_refl.
  - cbn [add_pv] in H.
    destruct (node_at t v) as [vn|]; [|discriminate]. cbn [rbind] in H.
    destruct (decide (move vn <> Some m)).
    + destruct (add_main_variation t v (Some m)) as [t1|] eqn:Hadd;
        [|discriminate].
      cbn [rbind] in H.
      destruct (variation t1 v (Some m)) as [v1|]; [|discriminate].
      cbn [rbind] in H.
      eapply tree_extends_trans; [eapply add_main_variation_extends; eauto|].
      eapply IH; eauto.
    + eapply IH; eauto.
Qed.

Lemma add_annotation_extends (node : nat) (j : Judgment) (depth : Z)
    (t t' : Tree) :
  add_annotation node j depth t = Ok t' -> tree_extends t t'.
Proof.
  unfold add_annotation. intros H.
  destruct (node_at t node) as [n|]; [|discriminate]. cbn [rbind] in H.
  assert (H0 : forall t0,
             (if decide (bestmove j <> move n)
              then rbind (getitem (playedcomment j))
                     (fun c => Ok (set_comment t node c))
              else Ok t) = Ok t0 -> tree_extends t t0).
  { intros t0 E. destruct (decide _).
    - destruct (playedcomment j); [|discriminate]. injection E as <-.
      apply tree_extends_set_comment.
    - injection E as <-. apply tree_extends_refl. }
  destruct (if decide (bestmove j <> move n) then _ else _) as [t0|];
    [|discriminate].
  specialize (H0 t0 eq_refl). cbn [rbind] in H.
  destruct (deref (parent n)) as [prev|]; [|discriminate]. cbn [rbind] in H.
  destruct (add_main_variation t0 prev (bestmove j)) as [t2|] eqn:Hadd;
    [|discriminate].
  cbn [rbind] in H.
  destruct (variation t2 prev (bestmove j)) as [v|]; [|discriminate].
  cbn [rbind] in H.
  destruct (add_pv _ t2 v) as [[t3 v3]|] eqn:Hpv; [|discriminate].
  cbn [rbind] in H.
  destruct (getitem (bestcomment j)) as [c|]; [|discriminate].
  cbn [rbind] in H.
  destruct (demote (set_comment t3 v3 c) prev (bestmove j)) as [t5|] eqn:Hdem;
    [|discriminate].
  cbn [rbind] in H. injection H as <-.
  eapply tree_extends_trans; [exact H0|].
  eapply tree_extends_trans; [eapply add_main_variation_extends; eauto|].
  eapply tree_extends_trans; [eapply add_pv_extends; eauto|].
  eapply tree_extends_trans; [apply tree_extends_set_comment|].
  eapply tree_extends_trans; [eapply demote_extends; eauto|].
  apply tree_extends_set_nags.
Qed.

(** X12.  Whenever [add_annotation] returns, the tree it returns has every
    node of the tree it was given, each with the parent and the move it
    had and with all the children it had: the function only adds nodes,
    comments and glyphs and reorders variations. *)
Theorem add_annotation_preserves (node : nat) (j : Judgment) (depth : Z)
    (t t' : Tree) :
  add_annotation node j depth t = Ok t' ->
  (length t <= length t')%nat
  /\ forall i n, t !! i = Some n ->
       exists n', t' !! i = Some n'
                  /\ parent n' = parent n
                  /\ move n' = move n
                  /\ (forall v, v ∈ variations n -> v ∈ variations n').
Proof. intros H. exact (add_annotation_extends node j depth t t' H). Qed.

(** ** The walk over the game *)

(** The nodes [main] judged, in the order it judged them. *)
Fixpoint judged_nodes (log : list Event) : list nat :=
  match log with
  | [] => []
  | Judged node _ :: rest => node :: judged_nodes rest
  | Annotated _ _ :: rest => judged_nodes rest
  end.

Lemma judged_nodes_app (l1 l2 : list Event) :
  judged_nodes (l1 ++ l2) = judged_nodes l1 ++ judged_nodes l2.
Proof.
  induction l1 as [|e l1 IH]; [reflexivity|].
  destruct e; simpl; now rewrite IH.
Qed.

(** A walk up the tree: it starts at [from], visits [nodes], each the
    parent of the one before and none of them the root, and arrives at the
    root. *)
Fixpoint climbs (t : Tree) (from : option nat) (nodes : list nat) (root : nat)
  : Prop :=
  match nodes with
  | [] => from = Some root
  | a :: rest =>
      from = Some a /\ a <> root
      /\ exists p, parent <$> t !! a = Some p /\ climbs t p rest root
  end.

Lemma extends_parent (t t' : Tree) (i : nat) (p : option nat) :
  tree_extends t t' ->
  parent <$> t !! i = Some p -> parent <$> t' !! i = Some p.
Proof.
  intros [_ H] Hp. destruct (t !! i) as [n|] eqn:Hn; [|discriminate].
  destruct (H i n Hn) as (n' & -> & Hpar & _). simpl in *. congruence.
Qed.

Lemma climbs_extends (t t' : Tree) (nodes : list nat) (root : nat) :
  tree_extends t t' ->
  forall from, climbs t from nodes root -> climbs t' from nodes root.
Proof.
  intros Hext. induction nodes as [|a rest IH]; intros from H; [exact H|].
  destruct H as (Hfrom & Hne & p & Hp & Hrest).
  split; [exact Hfrom|]. split; [exact Hne|].
  exists p. split; [eapply extends_parent; eauto | auto].
Qed.

Lemma game_root_extends (t t' : Tree) :
  tree_extends t t' ->
  forall fuel node r,
    game_root fuel t node = Ok r ->
    forall fuel', (fuel <= fuel')%nat -> game_root fuel' t' node = Ok r.
Proof.
  intros [_ Hext]. induction fuel as [|fuel IH]; intros node r H fuel' Hle;
    [discriminate|].
  destruct fuel' as [|fuel']; [lia|].
  cbn [game_root] in *. unfold node_at in *.
  destruct (t !! node) as [n|] eqn:Hn; [|discriminate].
  destruct (Hext node n Hn) as (n' & -> & Hp & _).
  cbn [rbind] in *. rewrite Hp.
  destruct (parent n) as [p|]; [|exact H].
  apply (IH p r H). lia.
Qed.

(** The root [game_root] finds is a node without a parent. *)
Lemma game_root_top (t : Tree) :
  forall fuel node r,
    game_root fuel t node = Ok r -> parent <$> t !! r = Some None.
Proof.
  induction fuel as [|fuel IH]; intros node r H; [discriminate|].
  cbn [game_root] in H. unfold node_at in H.
  destruct (t !! node) as [n|] eqn:Hn; [|discriminate].
  cbn [rbind] in H. destruct (parent n) as [p|] eqn:Hp.
  - eapply IH; eauto.
  - injection H as <-. rewrite Hn. simpl. now rewrite Hp.
Qed.

(** One call of [judge_move] runs one search or two. *)
Lemma judge_on_searches (b : Board) (played : option Move) (depth : Z)
    (w : World) (j : Judgment) (w1 : World) :
  judge_on b played depth w = Ok (j, w1) ->
  exists extra,
    w_searches w1 = w_searches w ++ extra
    /\ (1 <= length extra <= 2)%nat.
Proof.
  unfold judge_on. intros H.
  destruct (judge_move_cases _ _ _ _ _ H)
    as (_ & _ & _ & _ & _ & _ & _ & _ & [(_ & _ & ->)|(_ & m & e & _ & _ & _ & _ & Hs & _)]).
  - rewrite searched_searches. eexists. split; [reflexivity|]. simpl. lia.
  - rewrite Hs. eexists. split; [reflexivity|]. simpl. lia.
Qed.

(** The backward walk, as a whole: what it logs, what it leaves of the
    tree, where it ends, and the searches it runs. *)
Lemma walk_back_spec (fuel : nat) (start : Board) (depth : Z) (game : nat) :
  forall (node : option nat) (t : Tree) (w : World) (log : list Event)
         (t' : Tree) (w' : World) (log' : list Event) (node' : option nat),
    walk_back fuel start depth game node t w log = Ok (t', w', log', node') ->
    exists rest root extra,
      log' = log ++ rest
      /\ tree_extends t t'
      /\ game_root (S (length t')) t' game = Ok root
      /\ node' = Some root
      /\ climbs t' node (judged_nodes rest) root
      /\ w_searches w' = w_searches w ++ extra
      /\ (length (judged_nodes rest) <= length extra
          <= 2 * length (judged_nodes rest))%nat.
Proof.
  induction fuel as [|fuel IH]; intros node t w log t' w' log' node' H;
    [discriminate H|].
  cbn [walk_back] in H.
  destruct (game_root (S (length t)) t game) as [root|] eqn:Hroot;
    [|discriminate]. cbn [rbind] in H.
  destruct (decide (node = Some root)) as [Heq|Hne].
  - injection H as <- <- <- <-. exists [], root, [].
    rewrite !app_nil_r.
    split; [reflexivity|]. split; [apply tree_extends_refl|].
    split; [exact Hroot|]. split; [exact Heq|]. split; [exact Heq|].
    split; [reflexivity|]. simpl. lia.
  - destruct node as [cur|]; [|discriminate]. cbn [deref rbind] in H.
    unfold node_at in H. destruct (t !! cur) as [n|] eqn:Hn; [|discriminate].
    cbn [rbind] in H.
    destruct (deref (parent n)) as [prev|]; [|discriminate]. cbn [rbind] in H.
    destruct (node_board _ start t prev) as [pb|]; [|discriminate].
    cbn [rbind] in H.
    destruct (judge_on pb (move n) depth w) as [[j w1]|] eqn:Hj;
      [|discriminate].
    cbn [rbind] in H.
    destruct (judge_on_searches _ _ _ _ _ _ Hj) as (ex1 & Hs1 & Hl1).
    assert (Hstep : exists t1 evs,
               tree_extends t t1
               /\ judged_nodes evs = [cur]
               /\ walk_back fuel start depth game (parent n) t1 w1 (log ++ evs)
                  = Ok (t', w', log', node')).
    { destruct (needs_annotation j).
      - destruct (add_annotation cur j depth t) as [t1|] eqn:Hadd;
          [|discriminate].
        cbn [rbind] in H. exists t1, [Judged cur j; Annotated cur j].
        split; [eapply add_annotation_extends; eauto|]. split; [reflexivity|].
        exact H.
      - exists t, [Judged cur j].
        split; [apply tree_extends_refl|]. split; [reflexivity|]. exact H. }
    destruct Hstep as (t1 & evs & Hext1 & Hevs & Hwalk).
    destruct (IH _ _ _ _ _ _ _ _ Hwalk)
      as (rest & root' & ex2 & -> & Hext2 & Hroot' & -> & Hclimb & Hs2 & Hl2).
    assert (Hext : tree_extends t t') by (eapply tree_extends_trans; eauto).
    assert (Hsame : root' = root).
    { pose proof (game_root_extends t t' Hext _ _ _ Hroot (S (length t'))) as Hr.
      rewrite Hr in Hroot' by (destruct Hext; lia). congruence. }
    subst root'.
    exists (evs ++ rest), root, (ex1 ++ ex2).
    rewrite judged_nodes_app, Hevs. cbn [app length].
    split; [now rewrite app_assoc|]. split; [exact Hext|].
    split; [exact Hroot'|]. split; [reflexivity|]. split.
    + split; [reflexivity|]. split; [congruence|].
      exists (parent n). split; [|exact Hclimb].
      apply (extends_parent t t' cur (parent n) Hext). now rewrite Hn.
    + split; [rewrite Hs2, Hs1; now rewrite app_assoc|].
      rewrite length_app. lia.
Qed.

(** The final step, as a whole. *)
Lemma analyze_final_spec (fuel : nat) (start : Board) (depth : Z) (node : nat)
    (t : Tree) (w : World) (t1 : Tree) (w1 : World) (log1 : list Event) :
  analyze_final fuel start depth node t w = Ok (t1, w1, log1) ->
  tree_extends t t1
  /\ exists extra b,
       w_searches w1 = w_searches w ++ extra
       /\ (length (judged_nodes log1) <= length extra
           <= 2 * length (judged_nodes log1))%nat
       /\ node_board fuel start t node = Ok b
       /\ ((is_game_over rules b = true /\ log1 = [])
           \/ (is_game_over rules b = false
               /\ judged_nodes log1 = [node]
               /\ exists n p, t !! node = Some n /\ parent n = Some p)).
Proof.
  unfold analyze_final. intros H.
  destruct (node_board fuel start t node) as [b|] eqn:Hb; [|discriminate].
  cbn [rbind] in H.
  destruct (is_game_over rules b) eqn:Hover.
  - destruct (var_end_comment fuel start t node "") as [c|]; [|discriminate].
    cbn [rbind] in H. injection H as <- <- <-.
    split; [apply tree_extends_set_comment|].
    exists [], b. rewrite app_nil_r.
    split; [reflexivity|]. split; [simpl; lia|]. split; [reflexivity|].
    left. split; [exact Hover | reflexivity].
  - unfold node_at in H.
    destruct (t !! node) as [n|] eqn:Hn; [|discriminate]. cbn [rbind] in H.
    destruct (parent n) as [prev|] eqn:Hpar; [|discriminate].
    cbn [deref rbind] in H.
    destruct (node_board fuel start t prev) as [pb|]; [|discriminate].
    cbn [rbind] in H.
    destruct (judge_on pb (move n) depth w) as [[j w2]|] eqn:Hj;
      [|discriminate].
    cbn [rbind] in H.
    destruct (add_annotation node j depth t) as [t2|] eqn:Hadd;
      [|discriminate].
    cbn [rbind] in H. injection H as <- <- <-.
    destruct (judge_on_searches _ _ _ _ _ _ Hj) as (extra & Hs & Hl).
    split; [eapply add_annotation_extends; eauto|].
    exists extra, b.
    split; [exact Hs|]. split; [simpl; lia|]. split; [reflexivity|].
    right. split; [exact Hover|]. split; [reflexivity|].
    exists n, prev. split; [reflexivity | exact Hpar].
Qed.

(** A run of [main] that returns, taken apart. *)
Lemma main_inv (start : Board) (depth : Z) (game : nat) (t : Tree) (w : World)
    (t' : Tree) (w' : World) (log : list Event) :
  main start depth game t w = Ok (t', w', log) ->
  exists final t1 w1 log1 n1 t2 rest root extra,
    game_end (S (length t)) t game = Ok final
    /\ analyze_final (S (length t)) start depth final t w = Ok (t1, w1, log1)
    /\ t1 !! final = Some n1
    /\ log = log1 ++ rest
    /\ tree_extends t1 t2
    /\ game_root (S (length t2)) t2 game = Ok root
    /\ climbs t2 (parent n1) (judged_nodes rest) root
    /\ w_searches w' = w_searches w1 ++ extra
    /\ (length (judged_nodes rest) <= length extra
        <= 2 * length (judged_nodes rest))%nat
    /\ t' = set_comment t2 root
              (engine_name ++ " Depth: " ++ str_of_int depth)%string.
Proof.
  intros H. unfold main in H. cbv zeta in H.
  destruct (game_end (S (length t)) t game) as [final|] eqn:Hend;
    [|discriminate].
  cbn [rbind] in H.
  destruct (analyze_final (S (length t)) start depth final t w)
    as [[[t1 w1] log1]|] eqn:Hfin; [|discriminate].
  cbn [rbind] in H. unfold node_at in H.
  destruct (t1 !! final) as [n1|] eqn:Hn1; [|discriminate].
  cbn [rbind] in H.
  destruct (walk_back (S (length t)) start depth game (parent n1) t1 w1 log1)
    as [[[[t2 w2] log2] node2]|] eqn:Hwalk; [|discriminate].
  cbn [rbind] in H.
  destruct (walk_back_spec _ _ _ _ _ _ _ _ _ _ _ _ Hwalk)
    as (rest & root & extra & -> & Hext & Hroot & -> & Hclimb & Hs & Hl).
  cbn [deref rbind] in H. injection H as <- <- <-.
  exists final, t1, w1, log1, n1, t2, rest, root, extra.
  split; [first [reflexivity | exact Hend]|].
  split; [first [reflexivity | exact Hfin]|].
  split; [first [reflexivity | exact Hn1]|].
  split; [reflexivity|]. split; [exact Hext|]. split; [exact Hroot|].
  split; [exact Hclimb|]. split; [exact Hs|]. split; [exact Hl|].
  reflexivity.
Qed.

(** X13.  When [main] returns, the root of the game carries the comment
    that names the engine and the search depth. *)
Theorem main_root_comment (start : Board) (depth : Z) (game : nat)
    (t : Tree) (w : World) (t' : Tree) (w' : World) (log : list Event) :
  main start depth game t w = Ok (t', w', log) ->
  exists root,
    game_root (S (length t')) t' game = Ok root
    /\ comment <$> t' !! root
       = Some (engine_name ++ " Depth: " ++ str_of_int depth)%string.
Proof.
  intros H.
  destruct (main_inv _ _ _ _ _ _ _ _ H)
    as (final & t1 & w1 & log1 & n1 & t2 & rest & root & extra
        & _ & _ & _ & _ & _ & Hroot & _ & _ & _ & ->).
  exists root. split.
  - apply (game_root_extends t2 _ (tree_extends_set_comment t2 root _)
             _ _ _ Hroot).
    rewrite set_comment_length. lia.
  - apply set_comment_comment.
    pose proof (game_root_top t2 _ _ _ Hroot) as Htop.
    destruct (t2 !! root) as [r|] eqn:Hr; [|discriminate].
    eapply lookup_lt_Some; eauto.
Qed.


(** X15.  A run of [main] that returns judged the nodes from the last move
    to the first: starting at the final node, or at its parent when the
    final position is game over, every node judged is the parent of the one
    judged before it, none is the root, and the walk arrives at the root. *)
Theorem main_walk_order (start : Board) (depth : Z) (game : nat)
    (t : Tree) (w : World) (t' : Tree) (w' : World) (log : list Event) :
  main start depth game t w = Ok (t', w', log) ->
  exists final b root,
    game_end (S (length t)) t game = Ok final
    /\ node_board (S (length t)) start t final = Ok b
    /\ game_root (S (length t')) t' game = Ok root
    /\ climbs t'
         (if is_game_over rules b then t' !! final ≫= parent else Some final)
         (judged_nodes log) root.
Proof.
  intros H.
  destruct (main_inv _ _ _ _ _ _ _ _ H)
    as (final & t1 & w1 & log1 & n1 & t2 & rest & root & extra
        & Hend & Hfin & Hn1 & -> & Hext2 & Hroot & Hclimb & _ & _ & ->).
  destruct (analyze_final_spec _ _ _ _ _ _ _ _ _ Hfin)
    as (Hext1 & extra1 & b & _ & _ & Hb & Hcase).
  set (text := (engine_name ++ " Depth: " ++ str_of_int depth)%string).
  assert (Hext' : tree_extends t2 (set_comment t2 root text))
    by apply tree_extends_set_comment.
  assert (Hroot' : game_root (S (length (set_comment t2 root text)))
                     (set_comment t2 root text) game = Ok root).
  { apply (game_root_extends t2 _ Hext' _ _ _ Hroot).
    rewrite set_comment_length. lia. }
  assert (Hclimb' : climbs (set_comment t2 root text) (parent n1)
                      (judged_nodes rest) root)
    by (eapply climbs_extends; eauto).
  assert (Hpar' : parent <$> set_comment t2 root text !! final
                  = Some (parent n1)).
  { apply (extends_parent t2 _ _ _ Hext').
    apply (extends_parent t1 _ _ _ Hext2). now rewrite Hn1. }
  exists final, b, root.
  split; [exact Hend|]. split; [exact Hb|]. split; [exact Hroot'|].
  rewrite judged_nodes_app.
  destruct Hcase as [(Hover & ->)|(Hover & Hj1 & n & p & Hn & Hp)];
    rewrite Hover.
  - cbn [judged_nodes app].
    destruct (set_comment t2 root text !! final) as [n'|]; [|discriminate].
    simpl in Hpar'. injection Hpar' as Hpar'. simpl. now rewrite Hpar'.
  - rewrite Hj1. cbn [app climbs].
    split; [reflexivity|]. split.
    + intros ->.
      pose proof (game_root_top _ _ _ _ Hroot') as Htop.
      rewrite Hpar' in Htop. injection Htop as Htop.
      destruct Hext1 as [_ Hext1].
      destruct (Hext1 _ _ Hn) as (n1' & Hn1' & Hpar1 & _).
      rewrite Hn1 in Hn1'. injection Hn1' as <-. congruence.
    + exists (parent n1). split; [exact Hpar' | exact Hclimb'].
Qed.

(** X16.  On a game without moves [main] raises [AttributeError]: the final
    node is the root, which has no parent to take a board from or to walk
    to. *)
Theorem main_empty_game (start : Board) (depth : Z) (game : nat)
    (t : Tree) (w : World) (g : GameNode) :
  t !! game = Some g ->
  variations g = [] ->
  parent g = None ->
  main start depth game t w = Raise AttributeError.
Proof.
  intros Hg Hv Hp. unfold main. cbv zeta.
  assert (Hend : game_end (S (length t)) t game = Ok game).
  { cbn [game_end]. rewrite (node_at_lookup t game g Hg). cbn [rbind].
    now rewrite Hv. }
  rewrite Hend. cbn [rbind].
  assert (Hb : node_board (S (length t)) start t game = Ok start).
  { cbn [node_board]. rewrite (node_at_lookup t game g Hg). cbn [rbind].
    now rewrite Hp. }
  unfold analyze_final. rewrite Hb. cbn [rbind].
  destruct (is_game_over rules start).
  - unfold var_end_comment. rewrite Hb. cbn [rbind].
    match goal with
    | |- context [set_comment t game ?c] => set (t1 := set_comment t game c)
    end.
    assert (Hg1 : exists g1, t1 !! game = Some g1 /\ parent g1 = None).
    { unfold t1, set_comment. rewrite list_lookup_alter_eq, Hg. simpl.
      eexists. split; [reflexivity|]. exact Hp. }
    destruct Hg1 as (g1 & Hg1 & Hp1).
    rewrite (node_at_lookup t1 game g1 Hg1). cbn [rbind]. rewrite Hp1.
    cbn [walk_back game_root].
    rewrite (node_at_lookup t1 game g1 Hg1). cbn [rbind]. rewrite Hp1.
    cbn [rbind].
    destruct (decide (None = Some game)); [discriminate|].
    reflexivity.
  - rewrite (node_at_lookup t game g Hg). cbn [rbind]. rewrite Hp.
    reflexivity.
Qed.

(** X17.  On a final position that is game over the final step runs no
    search and logs nothing: it only writes the final node's comment, which
    is one of the four fixed texts or empty. *)
Theorem analyze_final_game_over (fuel : nat) (start : Board) (depth : Z)
    (node : nat) (t : Tree) (w : World) (b : Board) :
  node_board fuel start t node = Ok b ->
  is_game_over rules b = true ->
  exists c,
    analyze_final fuel start depth node t w = Ok (set_comment t node c, w, [])
    /\ var_end_comment fuel start t node "" = Ok c
    /\ c ∈ ["Stalemate"; "Insufficient material to mate"; "Fifty move rule";
            "Three-fold repetition"; ""].
Proof.
  intros Hb Hover. unfold analyze_final, var_end_comment.
  rewrite Hb. cbn [rbind]. rewrite Hover. cbn [rbind].
  eexists. split; [reflexivity|]. split; [reflexivity|].
  destruct (is_stalemate rules b); [repeat constructor|].
  destruct (is_insufficient_material rules b); [repeat constructor|].
  destruct (can_claim_fifty_moves rules b); [repeat constructor|].
  destruct (can_claim_threefold_repetition rules b); [repeat constructor|].
  destruct (is_checkmate rules b); repeat constructor.
Qed.

(** ** The run of [main], call by call *)

(** The [while] loop of [main] as the calls it makes.  [walk_run start depth
    game node t w log t' w'] says: from [node], on the tree [t] and in the
    world [w], the loop makes the calls logged in [log] and stops at the
    root, leaving the tree [t'] and the world [w'].  At a node that is not
    the root it calls [judge_move] on the board of the parent and the move
    of the node; it calls [add_annotation] on the node when, and only when,
    [needs_annotation] holds of the judgment; it goes on from the parent. *)
Inductive walk_run (start : Board) (depth : Z) (game : nat)
  : option nat -> Tree -> World -> list Event -> Tree -> World -> Prop :=
  | walk_run_root t w root :
      game_root (S (length t)) t game = Ok root ->
      walk_run start depth game (Some root) t w [] t w
  | walk_run_annotate t w root cur n prev pb j w1 t1 rest t' w' :
      game_root (S (length t)) t game = Ok root ->
      cur <> root ->
      t !! cur = Some n ->
      parent n = Some prev ->
      node_board (S (length t)) start t prev = Ok pb ->
      judge_on pb (move n) depth w = Ok (j, w1) ->
      needs_annotation j = true ->
      add_annotation cur j depth t = Ok t1 ->
      walk_run start depth game (Some prev) t1 w1 rest t' w' ->
      walk_run start depth game (Some cur) t w
        (Judged cur j :: Annotated cur j :: rest) t' w'
  | walk_run_skip t w root cur n prev pb j w1 rest t' w' :
      game_root (S (length t)) t game = Ok root ->
      cur <> root ->
      t !! cur = Some n ->
      parent n = Some prev ->
      node_board (S (length t)) start t prev = Ok pb ->
      judge_on pb (move n) depth w = Ok (j, w1) ->
      needs_annotation j = false ->
      walk_run start depth game (Some prev) t w1 rest t' w' ->
      walk_run start depth game (Some cur) t w (Judged cur j :: rest) t' w'.

(** What [walk_back] returns is a run of the loop. *)
Lemma walk_back_run (fuel : nat) (start : Board) (depth : Z) (game : nat) :
  forall (node : option nat) (t : Tree) (w : World) (log : list Event)
         (t' : Tree) (w' : World) (log' : list Event) (node' : option nat),
    walk_back fuel start depth game node t w log = Ok (t', w', log', node') ->
    exists rest,
      log' = log ++ rest /\ walk_run start depth game node t w rest t' w'.
Proof.
  induction fuel as [|fuel IH]; intros node t w log t' w' log' node' H;
    [discriminate H|].
  cbn [walk_back] in H.
  destruct (game_root (S (length t)) t game) as [root|] eqn:Hroot;
    [|discriminate]. cbn [rbind] in H.
  destruct (decide (node = Some root)) as [Heq|Hne].
  - injection H as <- <- <- <-. exists []. rewrite app_nil_r.
    split; [reflexivity|]. rewrite Heq. now constructor.
  - destruct node as [cur|]; [|discriminate]. cbn [deref rbind] in H.
    unfold node_at in H. destruct (t !! cur) as [n|] eqn:Hn; [|discriminate].
    cbn [rbind] in H.
    destruct (parent n) as [prev|] eqn:Hpar; [|discriminate].
    cbn [deref rbind] in H.
    destruct (node_board (S (length t)) start t prev) as [pb|] eqn:Hpb;
      [|discriminate].
    cbn [rbind] in H.
    destruct (judge_on pb (move n) depth w) as [[j w1]|] eqn:Hj;
      [|discriminate].
    cbn [rbind] in H.
    assert (Hcur : cur <> root) by congruence.
    destruct (needs_annotation j) eqn:Hneeds.
    + destruct (add_annotation cur j depth t) as [t1|] eqn:Hadd;
        [|discriminate].
      cbn [rbind] in H.
      destruct (IH _ _ _ _ _ _ _ _ H) as (rest & -> & Hrest).
      exists (Judged cur j :: Annotated cur j :: rest).
      split; [now rewrite <- app_assoc|].
      eapply walk_run_annotate; eassumption.
    + destruct (IH _ _ _ _ _ _ _ _ H) as (rest & -> & Hrest).
      exists (Judged cur j :: rest).
      split; [now rewrite <- app_assoc|].
      eapply walk_run_skip; eassumption.
Qed.

(** An engine that answers every search with a score [eval_numeric] can
    read and with a variation. *)
Definition engine_answers : Prop :=
  forall (e : EngineSt) (b : Board) (d : Z),
  exists v line,
    eval_numeric (reply_info (snd (engine_search e b d))) = Ok v
    /\ info_pv (reply_info (snd (engine_search e b d))) = Some line.

(** The trees a PGN reader builds, in an arena where a node comes after its
    parent: a node with a parent has a move, and the children of a node
    name it as their parent. *)
Definition well_formed (t : Tree) : Prop :=
  forall i n, t !! i = Some n ->
    (forall p, parent n = Some p -> (p < i)%nat /\ is_Some (move n))
    /\ (forall v, v ∈ variations n ->
          (i < v)%nat /\ exists c, t !! v = Some c /\ parent c = Some i).

(** The nodes below [game]: those whose parents lead up to it. *)
Inductive descends (t : Tree) (game : nat) : nat -> Prop :=
  | descends_here : descends t game game
  | descends_step i n p :
      t !! i = Some n -> parent n = Some p -> descends t game p ->
      descends t game i.

Lemma node_board_returns (start : Board) (t : Tree) :
  well_formed t ->
  forall fuel node n,
    t !! node = Some n -> (node < fuel)%nat ->
    exists b, node_board fuel start t node = Ok b.
Proof.
  intros Hwf. induction fuel as [|fuel IH]; intros node n Hn Hlt; [lia|].
  cbn [node_board]. rewrite (node_at_lookup t node n Hn). cbn [rbind].
  destruct (parent n) as [p|] eqn:Hpar; [|eauto].
  destruct (Hwf node n Hn) as [Hup _].
  destruct (Hup p Hpar) as [Hp [m Hm]].
  assert (Hpl : (p < length t)%nat).
  { apply lookup_lt_Some in Hn. lia. }
  destruct (lookup_lt_is_Some_2 t p Hpl) as [pn Hpn].
  destruct (IH p pn Hpn) as [b Hb]; [lia|].
  rewrite Hb. cbn [rbind]. rewrite Hm. eauto.
Qed.

Lemma node_board_extends (start : Board) (t t' : Tree) :
  tree_extends t t' ->
  forall fuel node b,
    node_board fuel start t node = Ok b ->
    forall fuel', (fuel <= fuel')%nat -> node_board fuel' start t' node = Ok b.
Proof.
  intros [_ Hext]. induction fuel as [|fuel IH]; intros node b H fuel' Hle;
    [discriminate|].
  destruct fuel' as [|fuel']; [lia|].
  cbn [node_board] in *. unfold node_at in *.
  destruct (t !! node) as [n|] eqn:Hn; [|discriminate].
  destruct (Hext node n Hn) as (n' & -> & Hp & Hm & _).
  cbn [rbind] in *. rewrite Hp, Hm.
  destruct (parent n) as [p|]; [|exact H].
  destruct (node_board fuel start t p) as [pb|] eqn:Hpb; [|discriminate].
  rewrite (IH p pb Hpb fuel') by lia. exact H.
Qed.

Lemma game_end_returns (t : Tree) (game : nat) :
  well_formed t ->
  forall fuel i n,
    t !! i = Some n -> descends t game i -> (length t < fuel + i)%nat ->
    exists final nf,
      game_end fuel t i = Ok final
      /\ t !! final = Some nf
      /\ descends t game final
      /\ (variations n <> [] -> (i < final)%nat).
Proof.
  intros Hwf. induction fuel as [|fuel IH]; intros i n Hn Hd Hlt.
  - apply lookup_lt_Some in Hn. lia.
  - cbn [game_end]. rewrite (node_at_lookup t i n Hn). cbn [rbind].
    destruct (variations n) as [|v vs] eqn:Hvs.
    + exists i, n. split; [reflexivity|]. split; [exact Hn|].
      split; [exact Hd|]. intros Hne. now contradiction Hne.
    + destruct (Hwf i n Hn) as [_ Hdown].
      destruct (Hdown v) as (Hiv & c & Hc & Hpc).
      { rewrite Hvs. apply list_elem_of_here. }
      destruct (IH v c Hc) as (final & nf & Hend & Hnf & Hdf & _).
      { eapply descends_step; eauto. }
      { lia. }
      exists final, nf. split; [exact Hend|]. split; [exact Hnf|].
      split; [exact Hdf|]. intros _.
      assert (Hle : (v <= final)%nat).
      { clear - Hwf Hend. revert v Hend.
        induction fuel as [|fuel IHf]; intros v Hend; [discriminate|].
        cbn [game_end] in Hend. unfold node_at in Hend.
        destruct (t !! v) as [vn|] eqn:Hvn; [|discriminate].
        cbn [rbind] in Hend.
        destruct (variations vn) as [|u us] eqn:Hus.
        - injection Hend as <-. lia.
        - destruct (Hwf v vn Hvn) as [_ Hdown].
          destruct (Hdown u) as (Hvu & _).
          { rewrite Hus. apply list_elem_of_here. }
          specialize (IHf u Hend). lia. }
      lia.
Qed.

(** With an engine that answers, [judge_move] returns on every move. *)
Lemma judge_move_returns (m : Move) (depth : Z) (w : World) :
  engine_answers ->
  exists j w', judge_move (Some m) depth w = Ok (j, w').
Proof.
  intros Heng.
  set (w1 := searched (w_board w) depth w).
  destruct (Heng (w_engine w) (w_board w) depth) as (v & line & Hv & Hpv).
  rewrite <- searched_info in Hv, Hpv. fold w1 in Hv, Hpv.
  destruct (decide (Some m = w_bestmove w1)) as [Hbest|Hne].
  - destruct (judge_move_best_returns (Some m) depth w v line Hbest Hv Hpv)
      as (j & Hj & _).
    eauto.
  - destruct (comment_of_ok _ v 100 (board_turn (w_board w)) Hv) as [bc Hbc].
    set (w1' := {| w_board := board_push m (w_board w1);
                   w_engine := w_engine w1;
                   w_position := w_position w1;
                   w_bestmove := w_bestmove w1;
                   w_info := w_info w1;
                   w_searches := w_searches w1 |}).
    set (w2 := searched (w_board w1') depth w1').
    destruct (Heng (w_engine w1') (w_board w1') depth) as (e & line2 & He & _).
    rewrite <- searched_info in He. fold w2 in He.
    destruct (comment_of_ok _ e (-100) (board_turn (w_board w)) He) as [pc Hpc].
    assert (Hb1 : w_board w1 = w_board w) by apply searched_board.
    assert (Hb2 : w_board w2 = board_push m (w_board w)).
    { unfold w2. rewrite searched_board. simpl. now rewrite Hb1. }
    eexists _, _. unfold judge_move. rewrite search_steps. fold w1.
    unfold mbind at 1, get_bestmove at 1.
    unfold mbind at 1, with_info at 1. rewrite Hv.
    unfold mbind at 1, with_info at 1. rewrite Hpv. simpl getitem. cbv iota.
    unfold mbind at 1. rewrite score_comment_eq.
    rewrite Hb1. rewrite Hbc. simpl rbind.
    unfold mbind at 1, get_bestmove at 1.
    unfold mbind at 1.
    destruct (decide (Some m = w_bestmove w1)) as [Heq|_]; [contradiction|].
    unfold mbind at 1, push at 1.
    rewrite search_steps. fold w1'. fold w2.
    unfold mbind at 1, with_info at 1. rewrite He.
    unfold mbind at 1, pop at 1. rewrite Hb2, board_pop_push.
    unfold mret at 1.
    unfold mbind at 1. rewrite score_comment_eq. cbn [w_board w_info].
    rewrite Hpc. simpl rbind. unfold mret. reflexivity.
Qed.

Lemma judge_on_returns (b : Board) (m : Move) (depth : Z) (w : World) :
  engine_answers ->
  exists j w1, judge_on b (Some m) depth w = Ok (j, w1).
Proof. intros Heng. unfold judge_on. now apply judge_move_returns. Qed.

(** On a node with a parent, [add_annotation] returns on every judgment
    [judge_move] gives. *)
Lemma add_annotation_returns (node prev : nat) (depth : Z) (t : Tree)
    (n : GameNode) (b : Board) (played : option Move) (w : World)
    (j : Judgment) (w1 : World) :
  t !! node = Some n ->
  parent n = Some prev ->
  (prev < length t)%nat ->
  judge_on b played depth w = Ok (j, w1) ->
  exists t1, add_annotation node j depth t = Ok t1.
Proof.
  intros Hn Hpar Hprev Hj.
  destruct (lookup_lt_is_Some_2 t prev Hprev) as [pn Hpn].
  unfold judge_on in Hj.
  destruct (judge_move_cases _ _ _ _ _ Hj)
    as (line & bc & pc & Hbe & _ & Hbc & Hpc & Hjeq & Hcase).
  cbn [w_board] in Hbe, Hbc, Hpc, Hcase.
  destruct (comment_of_ok _ _ 100 (board_turn b) Hbe) as [bc' Hbc'].
  assert (Hpe : exists v, eval_numeric (w_info w1) = Ok v).
  { destruct Hcase as [(_ & _ & ->)|(_ & m & e & _ & _ & _ & _ & _ & He)]; eauto. }
  destruct Hpe as [v Hv].
  destruct (comment_of_ok _ _ (-100) (board_turn b) Hv) as [pc' Hpc'].
  eexists. eapply add_annotation_eq; eauto.
  - exists bc'. rewrite Hjeq. simpl. congruence.
  - intros _. exists pc'. rewrite Hjeq. simpl. congruence.
Qed.

Lemma game_root_here (t : Tree) (game : nat) (g : GameNode) (fuel : nat) :
  t !! game = Some g -> parent g = None ->
  game_root (S fuel) t game = Ok game.
Proof.
  intros Hg Hp. cbn [game_root]. rewrite (node_at_lookup t game g Hg).
  cbn [rbind]. now rewrite Hp.
Qed.

(** On a well-formed tree and with an engine that answers, the loop
    returns from every node below the root, with fuel above the node's
    index. *)
Lemma walk_back_returns (start : Board) (depth : Z) (game : nat)
    (t0 : Tree) (g : GameNode) :
  engine_answers -> well_formed t0 ->
  t0 !! game = Some g -> parent g = None ->
  forall fuel cur t w log,
    tree_extends t0 t -> descends t0 game cur -> (cur < fuel)%nat ->
    exists r, walk_back fuel start depth game (Some cur) t w log = Ok r.
Proof.
  intros Heng Hwf Hg Hroot.
  induction fuel as [|fuel IH]; intros cur t w log Hext Hd Hlt; [lia|].
  cbn [walk_back].
  destruct (proj2 Hext game g Hg) as (g' & Hg' & Hpg' & _).
  rewrite (game_root_here t game g' (length t) Hg') by congruence.
  cbn [rbind].
  destruct (decide (Some cur = Some game)) as [_|Hne]; [eauto|].
  inversion Hd as [Heq|i n p Hn Hpar Hdp Heq]; [congruence|]. subst i.
  destruct (Hwf cur n Hn) as [Hup _].
  destruct (Hup p Hpar) as [Hp [m Hm]].
  destruct (proj2 Hext cur n Hn) as (n' & Hn' & Hpar' & Hm' & _).
  cbn [deref rbind]. rewrite (node_at_lookup t cur n' Hn'). cbn [rbind].
  rewrite Hpar', Hpar. cbn [deref rbind].
  assert (Hpl0 : (p < length t0)%nat).
  { apply lookup_lt_Some in Hn. lia. }
  assert (Hpl : (p < length t)%nat) by (destruct Hext; lia).
  destruct (lookup_lt_is_Some_2 t0 p Hpl0) as [pn Hpn].
  destruct (node_board_returns start t0 Hwf (S p) p pn Hpn) as [pb Hpb]; [lia|].
  rewrite (node_board_extends start t0 t Hext _ _ _ Hpb (S (length t))) by lia.
  cbn [rbind]. rewrite Hm', Hm.
  destruct (judge_on_returns pb m depth w Heng) as (j & w1 & Hj).
  rewrite Hj. cbn [rbind].
  destruct (needs_annotation j).
  - destruct (add_annotation_returns cur p depth t n' pb (Some m) w j w1)
      as [t1 Hadd]; try assumption; [congruence|].
    rewrite Hadd. cbn [rbind].
    apply IH; [|exact Hdp|lia].
    eapply tree_extends_trans; [exact Hext|].
    eapply add_annotation_extends; eauto.
  - apply IH; [exact Hext|exact Hdp|lia].
Qed.

(** On a well-formed tree whose game has a move, and with an engine that
    answers, [main] returns: the fuel it gives the walk is enough. *)
Lemma main_returns (start : Board) (depth : Z) (game : nat) (t : Tree)
    (w : World) (g : GameNode) :
  engine_answers -> well_formed t ->
  t !! game = Some g -> parent g = None -> variations g <> [] ->
  exists t' w' log, main start depth game t w = Ok (t', w', log).
Proof.
  intros Heng Hwf Hg Hroot Hmoves. unfold main. cbv zeta.
  destruct (game_end_returns t game Hwf (S (length t)) game g Hg
              (descends_here t game))
    as (final & nf & Hend & Hnf & Hdf & Hlt); [lia|].
  specialize (Hlt Hmoves).
  rewrite Hend. cbn [rbind].
  assert (Hfl : (final < length t)%nat) by (eapply lookup_lt_Some; eauto).
  inversion Hdf as [Heq|i n p Hn Hpar Hdp Heq]; [lia|]. subst i.
  assert (n = nf) by congruence. subst n.
  destruct (Hwf final nf Hnf) as [Hup _].
  destruct (Hup p Hpar) as [Hp [m Hm]].
  assert (Hfinal : exists t1 w1 log1,
             analyze_final (S (length t)) start depth final t w
             = Ok (t1, w1, log1)).
  { unfold analyze_final, var_end_comment.
    destruct (node_board_returns start t Hwf (S (length t)) final nf Hnf)
      as [b Hb]; [lia|].
    rewrite Hb. cbn [rbind].
    destruct (is_game_over rules b); [eauto|].
    rewrite (node_at_lookup t final nf Hnf). cbn [rbind].
    rewrite Hpar. cbn [deref rbind].
    destruct (lookup_lt_is_Some_2 t p) as [pn Hpn]; [lia|].
    destruct (node_board_returns start t Hwf (S (length t)) p pn Hpn)
      as [pb Hpb]; [lia|].
    rewrite Hpb. cbn [rbind]. rewrite Hm.
    destruct (judge_on_returns pb m depth w Heng) as (j & w1 & Hj).
    rewrite Hj. cbn [rbind].
    destruct (add_annotation_returns final p depth t nf pb (Some m) w j w1)
      as [t1 Hadd]; try assumption; [lia|].
    rewrite Hadd. cbn [rbind]. eauto. }
  destruct Hfinal as (t1 & w1 & log1 & Hfinal). rewrite Hfinal. cbn [rbind].
  destruct (analyze_final_spec _ _ _ _ _ _ _ _ _ Hfinal) as [Hext _].
  destruct (proj2 Hext final nf Hnf) as (n1 & Hn1 & Hpar1 & _).
  rewrite (node_at_lookup t1 final n1 Hn1). cbn [rbind].
  rewrite Hpar1, Hpar.
  destruct (walk_back_returns start depth game t g Heng Hwf Hg Hroot
              (S (length t)) p t1 w1 log1 Hext Hdp)
    as [[[[t2 w2] log2] node2] Hwalk]; [lia|].
  rewrite Hwalk. cbn [rbind].
  destruct (walk_back_spec _ _ _ _ _ _ _ _ _ _ _ _ Hwalk)
    as (rest & root & extra & _ & _ & _ & -> & _).
  cbn [deref rbind]. eauto.
Qed.

(** C9.  A run of [main] that returns is made of these calls.  On the last
    node of the main line, when its position is not game over, [main] calls
    [judge_move] on the board of the parent and the move of the node, and
    then [add_annotation] on the node with that judgment, whatever
    [needs_annotation] says of it; when the position is game over it calls
    neither and writes the end comment.  From the parent of the last node
    the loop runs as [walk_run] says: every node up to the root is judged,
    and [add_annotation] is called on it when, and only when,
    [needs_annotation] holds of its judgment, that is when
    [playedeval - besteval < -50].  The tree [main] returns is the tree the
    loop leaves with the root's comment set, the world is the one the loop
    leaves, and the log lists the calls in order.  And [main] does return,
    on a well-formed tree whose game has a move and with an engine that
    answers every search. *)
Theorem main_annotation_log (start : Board) (depth : Z) (game : nat)
    (t : Tree) (w : World) :
  (forall t' w' log,
     main start depth game t w = Ok (t', w', log) ->
     exists final n b t1 w1 first rest t2 root,
       game_end (S (length t)) t game = Ok final
       /\ t !! final = Some n
       /\ node_board (S (length t)) start t final = Ok b
       /\ (is_game_over rules b = false ->
           exists prev pb j,
             parent n = Some prev
             /\ node_board (S (length t)) start t prev = Ok pb
             /\ judge_on pb (move n) depth w = Ok (j, w1)
             /\ add_annotation final j depth t = Ok t1
             /\ first = [Judged final j; Annotated final j])
       /\ (is_game_over rules b = true ->
           exists c,
             var_end_comment (S (length t)) start t final "" = Ok c
             /\ t1 = set_comment t final c /\ w1 = w /\ first = [])
       /\ walk_run start depth game (parent n) t1 w1 rest t2 w'
       /\ game_root (S (length t2)) t2 game = Ok root
       /\ log = first ++ rest
       /\ t' = set_comment t2 root
                 (engine_name ++ " Depth: " ++ str_of_int depth)%string)
  /\ (forall j, needs_annotation j = true <-> playedeval j - besteval j < -50)
  /\ (engine_answers -> well_formed t ->
      forall g, t !! game = Some g -> parent g = None -> variations g <> [] ->
      exists t' w' log, main start depth game t w = Ok (t', w', log)).
Proof.
  split; [|split].
  2: { exact needs_annotation_spec. }
  2: { intros Heng Hwf g Hg Hroot Hmoves.
       exact (main_returns start depth game t w g Heng Hwf Hg Hroot Hmoves). }
  intros t' w' log H. unfold main in H. cbv zeta in H.
  destruct (game_end (S (length t)) t game) as [final|] eqn:Hend;
    [|discriminate].
  cbn [rbind] in H.
  destruct (analyze_final (S (length t)) start depth final t w)
    as [[[t1 w1] first]|] eqn:Hfin; [|discriminate].
  cbn [rbind] in H. unfold node_at in H.
  destruct (t1 !! final) as [n1|] eqn:Hn1; [|discriminate].
  cbn [rbind] in H.
  destruct (walk_back (S (length t)) start depth game (parent n1) t1 w1 first)
    as [[[[t2 w2] log2] node2]|] eqn:Hwalk; [|discriminate].
  cbn [rbind] in H.
  destruct (walk_back_run _ _ _ _ _ _ _ _ _ _ _ _ Hwalk) as (rest & -> & Hrun).
  destruct (walk_back_spec _ _ _ _ _ _ _ _ _ _ _ _ Hwalk)
    as (rest' & root & extra & _ & _ & Hroot & -> & _).
  cbn [deref rbind] in H. injection H as <- <- <-.
  destruct (analyze_final_spec _ _ _ _ _ _ _ _ _ Hfin) as [Hext _].
  unfold analyze_final in Hfin.
  destruct (node_board (S (length t)) start t final) as [b|] eqn:Hb;
    [|discriminate].
  cbn [rbind] in Hfin.
  assert (Hn : exists n, t !! final = Some n /\ parent n = parent n1).
  { destruct (t !! final) as [n|] eqn:Hn.
    - destruct (proj2 Hext final n Hn) as (n' & Hn' & Hp' & _).
      exists n. split; [reflexivity|]. congruence.
    - exfalso. clear - Hb Hn. cbn [node_board] in Hb. unfold node_at in Hb.
      rewrite Hn in Hb. discriminate. }
  destruct Hn as (n & Hn & Hpn).
  rewrite <- Hpn in Hrun.
  exists final, n, b, t1, w1, first, rest, t2, root.
  split; [first [reflexivity | exact Hend]|]. split; [exact Hn|].
  split; [first [reflexivity | exact Hb]|].
  assert (Hstep :
    (is_game_over rules b = false ->
     exists prev pb j,
       parent n = Some prev
       /\ node_board (S (length t)) start t prev = Ok pb
       /\ judge_on pb (move n) depth w = Ok (j, w1)
       /\ add_annotation final j depth t = Ok t1
       /\ first = [Judged final j; Annotated final j])
    /\ (is_game_over rules b = true ->
        exists c,
          var_end_comment (S (length t)) start t final "" = Ok c
          /\ t1 = set_comment t final c /\ w1 = w /\ first = [])).
  { destruct (is_game_over rules b).
    - split; [discriminate|]. intros _.
      destruct (var_end_comment (S (length t)) start t final "") as [c|];
        [|discriminate].
      cbn [rbind] in Hfin. injection Hfin as <- <- <-.
      exists c. repeat split; reflexivity.
    - split; [|discriminate]. intros _.
      rewrite (node_at_lookup t final n Hn) in Hfin. cbn [rbind] in Hfin.
      destruct (parent n) as [prev|]; [|discriminate].
      cbn [deref rbind] in Hfin.
      destruct (node_board (S (length t)) start t prev) as [pb|] eqn:Hpb;
        [|discriminate].
      cbn [rbind] in Hfin.
      destruct (judge_on pb (move n) depth w) as [[j wj]|] eqn:Hj;
        [|discriminate].
      cbn [rbind] in Hfin.
      destruct (add_annotation final j depth t) as [tj|] eqn:Hadd;
        [|discriminate].
      cbn [rbind] in Hfin. injection Hfin as <- <- <-.
      exists prev, pb, j.
      split; [reflexivity|]. split; [first [reflexivity | exact Hpb]|].
      split; [first [reflexivity | exact Hj]|].
      split; [first [reflexivity | exact Hadd]|]. reflexivity. }
  destruct Hstep as [Hopen Hover].
  split; [exact Hopen|]. split; [exact Hover|].
  split; [exact Hrun|]. split; [exact Hroot|].
  split; reflexivity.
Qed.

End Annotator.

(** * Runs on a concrete game

    The game 1. e4 e5 from the starting position, an engine that answers
    from a script, and floats as decimal numbers with two places. *)

Definition e2e4 : Move := {| from_square := 12; to_square := 28; promotion := None |}.
Definition e7e5 : Move := {| from_square := 52; to_square := 36; promotion := None |}.
Definition d2d4 : Move := {| from_square := 11; to_square := 27; promotion := None |}.
Definition d7d5 : Move := {| from_square := 51; to_square := 35; promotion := None |}.
Definition g1f3 : Move := {| from_square := 6; to_square := 21; promotion := None |}.
Definition b8c6 : Move := {| from_square := 57; to_square := 42; promotion := None |}.

Definition mate_score (m : Z) : InfoHandler :=
  {| info_score := Some {| cp := None; mate := Some m |}; info_pv := None |}.

Definition cp_score (c : Z) : InfoHandler :=
  {| info_score := Some {| cp := Some c; mate := None |}; info_pv := None |}.

Definition no_score : InfoHandler :=
  {| info_score := Some {| cp := None; mate := None |}; info_pv := None |}.

Definition cp_reply (best : Move) (c : Z) (line : list Move) : Reply :=
  {| reply_bestmove := Some best;
     reply_info := {| info_score := Some {| cp := Some c; mate := None |};
                      info_pv := Some line |} |}.

Definition start_board : Board :=
  {| start_fen := "rnbqkbnr/pppppppp/8/8/8/8/PPPPPPPP/RNBQKBNR w KQkq - 0 1";
     start_turn := true;
     move_stack := [] |}.

(** The tree of 1. e4 e5: the root, then one node per move. *)
Definition demo_tree : Tree :=
  [ {| parent := None; move := None; comment := ""; nags := [];
       variations := [1%nat] |};
    {| parent := Some 0%nat; move := Some e2e4; comment := ""; nags := [];
       variations := [2%nat] |};
    {| parent := Some 1%nat; move := Some e7e5; comment := ""; nags := [];
       variations := [] |} ].

(** A world whose engine will answer the searches from [script]. *)
Definition demo_world (b : Board) (script : list Reply) : World (list Reply) :=
  {| w_board := b;
     w_engine := script;
     w_position := b;
     w_bestmove := None;
     w_info := {| info_score := None; info_pv := None |};
     w_searches := [] |}.

(** No position of the game is over. *)
Definition demo_rules : BoardRules :=
  {| is_game_over := fun _ => false;
     is_stalemate := fun _ => false;
     is_insufficient_material := fun _ => false;
     can_claim_fifty_moves := fun _ => false;
     can_claim_threefold_repetition := fun _ => false;
     is_checkmate := fun _ => false |}.

(** The engine agrees with 1... e5, and prefers 1. d4 to 1. e4, after which
    it gives Black 2.80: three searches. *)
Definition demo_script : list Reply :=
  [ cp_reply e7e5 30 [e7e5; g1f3; b8c6];
    cp_reply d2d4 40 [d2d4; d7d5];
    cp_reply e7e5 280 [e7e5; g1f3] ].

Definition demo_judgment : Judgment :=
  {| bestmove := Some d7d5;
     besteval := 35;
     bestcomment := Some "-0.35";
     pv := [d7d5; g1f3; b8c6];
     playedeval := -270;
     playedcomment := Some "2.70" |}.

(** ** The theorems at concrete inputs *)

(** C1, as stated, fails: on the mate score [0] [eval_numeric] returns
    [-10000], not [sign(0) * (10000 - 0) = 0]; the centipawn score [20000]
    exceeds in magnitude the value [9999] of a mate in one; and on the mate
    score [-3] the result is not [sign(-3) * (10000 - 3) = -9997]. *)
Lemma eval_numeric_scale_fails :
  eval_numeric (mate_score 0) = Ok (-10000)
  /\ eval_numeric (mate_score 0) <> Ok (Z.sgn 0 * (max_score - Z.abs 0))
  /\ (exists a b,
        eval_numeric (mate_score 1) = Ok a
        /\ eval_numeric (cp_score 20000) = Ok b
        /\ Z.abs a < Z.abs b)
  /\ eval_numeric (mate_score (-3))
     <> Ok (Z.sgn (-3) * (max_score - Z.abs (-3))).
Proof.
  split; [reflexivity|]. split; [discriminate|]. split; [|discriminate].
  exists 9999, 20000. repeat split.
Qed.

(** A mate score below zero goes through the [else] branch too: for the
    side to move mated in three, [-(10000 - (-3))]. *)
Example eval_numeric_mated_in_three :
  eval_numeric (mate_score (-3)) = Ok (-10003).
Proof. reflexivity. Qed.

Lemma eval_numeric_scale_witness :
  eval_numeric (mate_score 3) = Ok 9997
  /\ eval_numeric (cp_score 2500) = Ok 2500
  /\ (exists a b,
        eval_numeric (mate_score 3) = Ok a
        /\ eval_numeric (cp_score 2500) = Ok b
        /\ Z.abs b < Z.abs a).
Proof.
  destruct (eval_numeric_scale (mate_score 3) (cp_score 2500)
              {| cp := None; mate := Some 3 |}
              {| cp := Some 2500; mate := None |} eq_refl eq_refl)
    as (Hmate & _ & _ & Hdom & _).
  split; [apply (Hmate 3); [reflexivity | lia]|].
  split; [reflexivity|].
  apply (Hdom 3 2500); try reflexivity; unfold max_score; lia.
Defined.

Lemma judge_move_best_one_search_witness :
  exists j,
    judge_move (list Reply) scripted_search (Some e7e5) 4
      (demo_world (board_push e2e4 start_board) demo_script)
    = Ok (j, {| w_board := board_push e2e4 start_board;
                w_engine := tl demo_script;
                w_position := board_push e2e4 start_board;
                w_bestmove := Some e7e5;
                w_info := reply_info (cp_reply e7e5 30 [e7e5; g1f3; b8c6]);
                w_searches := [(board_push e2e4 start_board, 4)] |})
    /\ bestmove j = Some e7e5
    /\ besteval j = 30 /\ playedeval j = 30 /\ pv j = [e7e5; g1f3; b8c6].
Proof.
  destruct (judge_move_best_one_search (list Reply) scripted_search
              (Some e7e5) 4
              (demo_world (board_push e2e4 start_board) demo_script) eq_refl)
    as [_ Hreturns].
  exact (Hreturns 30 [e7e5; g1f3; b8c6] eq_refl eq_refl).
Defined.

Lemma add_annotation_branch_witness :
  exists t' k,
    add_annotation 2 demo_judgment 4 demo_tree = Ok t'
    /\ Z.of_nat k <= 2
    /\ length t' = (3 + 1 + k)%nat
    /\ variations <$> t' !! 1%nat = Some [2%nat; 3%nat]
    /\ move <$> t' !! 2%nat = Some (Some e7e5).
Proof.
  destruct (add_annotation_branch 2 1 demo_judgment 4 demo_tree
              {| parent := Some 1%nat; move := Some e7e5; comment := "";
                 nags := []; variations := [] |}
              {| parent := Some 0%nat; move := Some e2e4; comment := "";
                 nags := []; variations := [2%nat] |}
              "-0.35" eq_refl eq_refl eq_refl eq_refl
              (fun _ => ex_intro _ "2.70" eq_refl) ltac:(lia))
    as (t' & k & Hrun & _ & Hk & Hlen & _ & _ & _ & Hmain & Hmove & _).
  exists t', k. split; [exact Hrun|]. split; [exact Hk|].
  split; [exact Hlen|]. split; [exact (Hmain [] eq_refl) | exact Hmove].
Defined.

Lemma get_nags_boundaries_witness :
  get_nags {| bestmove := None; besteval := 0; bestcomment := None;
              pv := []; playedeval := -300; playedcomment := None |}
  = [NAG_MISTAKE].
Proof.
  apply (get_nags_boundaries
           {| bestmove := None; besteval := 0; bestcomment := None;
              pv := []; playedeval := -300; playedcomment := None |});
    simpl; [lia | lia | reflexivity].
Defined.

Lemma get_nags_override_witness :
  get_nags {| bestmove := None; besteval := 1400; bestcomment := None;
              pv := []; playedeval := 900; playedcomment := None |}
  = [].
Proof.
  apply (get_nags_override
           {| bestmove := None; besteval := 1400; bestcomment := None;
              pv := []; playedeval := 900; playedcomment := None |}).
  left. simpl. lia.
Defined.

Lemma judge_move_restores_board_witness :
  exists j w',
    judge_move (list Reply) scripted_search (Some e2e4) 4
      (demo_world start_board (tail demo_script)) = Ok (j, w')
    /\ w_board (list Reply) w' = start_board
    /\ w_searches (list Reply) w'
       = [(start_board, 4); (board_push e2e4 start_board, 4)].
Proof.
  destruct (judge_move (list Reply) scripted_search (Some e2e4) 4
              (demo_world start_board (tail demo_script)))
    as [[j w']|e] eqn:Hrun; [|vm_compute in Hrun; discriminate Hrun].
  exists j, w'. split; [reflexivity|].
  destruct (judge_move_restores_board (list Reply) scripted_search
              (Some e2e4) 4 (demo_world start_board (tail demo_script))
              j w' Hrun)
    as (Hboard & _ & Hsecond).
  split; [exact Hboard|].
  destruct Hsecond as (m & Hm & Hsearches).
  - vm_compute in Hrun. injection Hrun as <- _. discriminate.
  - injection Hm as <-. exact Hsearches.
Defined.

Lemma eval_numeric_needs_score_witness :
  eval_numeric no_score = Raise UnboundLocalError
  /\ exists e,
       judge_move (list Reply) scripted_search (Some e2e4) 4
         (demo_world start_board
            [{| reply_bestmove := Some d2d4; reply_info := no_score |}])
       = Raise e.
Proof.
  assert (Hno : forall s, info_score no_score = Some s
                          -> cp s = None /\ mate s = None).
  { intros s Hs. injection Hs as <-. split; reflexivity. }
  destruct (eval_numeric_needs_score (list Reply) scripted_search no_score Hno)
    as (_ & Hraise & Hjudge).
  split; [exact Hraise|].
  apply (Hjudge (Some e2e4) 4
           (demo_world start_board
              [{| reply_bestmove := Some d2d4; reply_info := no_score |}])).
  reflexivity.
Defined.

(** An engine that answers every search: it counts its searches, proposes
    1... e5 everywhere, and gives 0.30 with an even number of moves on the
    board and 1.30 with an odd one. *)
Definition steady_search (n : nat) (b : Board) (_ : Z) : nat * Reply :=
  (S n,
   cp_reply e7e5 (if Nat.even (length (move_stack b)) then 30 else 130)
     [e7e5; g1f3]).

Definition steady_world : World nat :=
  {| w_board := start_board;
     w_engine := 0%nat;
     w_position := start_board;
     w_bestmove := None;
     w_info := {| info_score := None; info_pv := None |};
     w_searches := [] |}.

(** The tree of 1. e4 e5 2. Nf3: the root, then one node per move. *)
Definition long_tree : Tree :=
  [ {| parent := None; move := None; comment := ""; nags := [];
       variations := [1%nat] |};
    {| parent := Some 0%nat; move := Some e2e4; comment := ""; nags := [];
       variations := [2%nat] |};
    {| parent := Some 1%nat; move := Some e7e5; comment := ""; nags := [];
       variations := [3%nat] |};
    {| parent := Some 2%nat; move := Some g1f3; comment := ""; nags := [];
       variations := [] |} ].

Lemma steady_search_answers : engine_answers nat steady_search.
Proof.
  intros e b d. unfold steady_search. simpl.
  eexists _, _. split; reflexivity.
Qed.

Lemma long_tree_well_formed : well_formed long_tree.
Proof.
  intros i n Hn.
  destruct i as [|[|[|[|i]]]]; simpl in Hn; try discriminate Hn;
    injection Hn as <-; simpl; (split; [intros p Hp | intros v Hv]);
    try discriminate Hp; try (injection Hp as <-; split; [lia | eauto]);
    repeat match goal with
      | H : _ ∈ _ |- _ => inversion H; clear H; subst
      end;
    (split; [lia | eexists; split; reflexivity]).
Qed.

Lemma main_annotation_log_witness :
  exists t' w' log,
    main nat steady_search "Stockfish 8" demo_rules start_board 4 0
      long_tree steady_world = Ok (t', w', log)
    /\ exists j t1 w1 rest t2 root,
         judge_on nat steady_search
           (board_push e7e5 (board_push e2e4 start_board)) (Some g1f3) 4
           steady_world = Ok (j, w1)
         /\ add_annotation 3 j 4 long_tree = Ok t1
         /\ walk_run nat steady_search start_board 4 0 (Some 2%nat)
              t1 w1 rest t2 w'
         /\ game_root (S (length t2)) t2 0 = Ok root
         /\ log = Judged 3 j :: Annotated 3 j :: rest
         /\ t' = set_comment t2 root "Stockfish 8 Depth: 4".
Proof.
  destruct (main_annotation_log nat steady_search "Stockfish 8" demo_rules
              start_board 4 0 long_tree steady_world)
    as (Hcalls & _ & Hreturns).
  destruct (Hreturns steady_search_answers long_tree_well_formed _
              eq_refl eq_refl ltac:(discriminate))
    as (t' & w' & log & Hrun).
  exists t', w', log. split; [exact Hrun|].
  destruct (Hcalls t' w' log Hrun)
    as (final & n & b & t1 & w1 & first & rest & t2 & root
        & Hend & Hn & Hb & Hopen & _ & Hwalk & Hroot & Hlog & Ht').
  vm_compute in Hend. injection Hend as <-.
  vm_compute in Hn. injection Hn as <-.
  destruct (Hopen eq_refl) as (prev & pb & j & Hpar & Hpb & Hj & Hadd & Hfirst).
  injection Hpar as <-.
  vm_compute in Hpb. injection Hpb as <-.
  exists j, t1, w1, rest, t2, root.
  split; [exact Hj|]. split; [exact Hadd|]. split; [exact Hwalk|].
  split; [exact Hroot|]. split; [rewrite Hlog, Hfirst; reflexivity|].
  exact Ht'.
Defined.

Lemma judge_move_best_comment_witness :
  exists j w',
    judge_move (list Reply) scripted_search (Some e7e5) 4
      (demo_world (board_push e2e4 start_board) demo_script) = Ok (j, w')
    /\ playedcomment j = Some "0.30"
    /\ bestcomment j = Some "-0.30"
    /\ playedeval j = besteval j.
Proof.
  destruct (judge_move (list Reply) scripted_search (Some e7e5) 4
              (demo_world (board_push e2e4 start_board) demo_script))
    as [[j w']|e] eqn:Hrun; [|vm_compute in Hrun; discriminate Hrun].
  exists j, w'. split; [reflexivity|].
  exact (judge_move_best_comment (list Reply) scripted_search (Some e7e5) 4
           (demo_world (board_push e2e4 start_board) demo_script) j w'
           {| cp := Some 30; mate := None |} 30
           Hrun eq_refl eq_refl eq_refl eq_refl).
Defined.

(** ** The further properties at concrete inputs *)

Definition mate_reply : Reply :=
  {| reply_bestmove := Some e7e5;
     reply_info := {| info_score := Some {| cp := None; mate := Some (-3) |};
                      info_pv := Some [e7e5] |} |}.

(** A game over by checkmate at every position. *)
Definition mate_rules : BoardRules :=
  {| is_game_over := fun _ => true;
     is_stalemate := fun _ => false;
     is_insufficient_material := fun _ => false;
     can_claim_fifty_moves := fun _ => false;
     can_claim_threefold_repetition := fun _ => false;
     is_checkmate := fun _ => true |}.

(** A game without moves. *)
Definition empty_game : Tree :=
  [ {| parent := None; move := None; comment := ""; nags := [];
       variations := [] |} ].

Lemma glyph_needs_annotation_witness :
  needs_annotation
    {| bestmove := None; besteval := 0; bestcomment := None;
       pv := []; playedeval := -100; playedcomment := None |} = true.
Proof.
  apply (glyph_needs_annotation
           {| bestmove := None; besteval := 0; bestcomment := None;
              pv := []; playedeval := -100; playedcomment := None |}).
  discriminate.
Defined.

Lemma eval_numeric_mate_sign_witness :
  exists v, eval_numeric (mate_score 3) = Ok v /\ 1 <= v <= 9999.
Proof.
  destruct (eval_numeric_mate_sign (mate_score 3)
              {| cp := None; mate := Some 3 |} 3 eq_refl eq_refl)
    as (v & Hv & _ & Hpos & _).
  exists v. split; [exact Hv|]. apply Hpos. lia.
Defined.

Lemma judge_move_first_search_witness :
  exists j w',
    judge_move (list Reply) scripted_search (Some e2e4) 4
      (demo_world start_board (tail demo_script)) = Ok (j, w')
    /\ bestmove j = Some d2d4
    /\ Ok 40 = Ok (besteval j)
    /\ Some [d2d4; d7d5] = Some (pv j).
Proof.
  destruct (judge_move (list Reply) scripted_search (Some e2e4) 4
              (demo_world start_board (tail demo_script)))
    as [[j w']|e] eqn:Hrun; [|vm_compute in Hrun; discriminate Hrun].
  exists j, w'. split; [reflexivity|].
  destruct (judge_move_first_search (list Reply) scripted_search
              (Some e2e4) 4 (demo_world start_board (tail demo_script))
              j w' Hrun)
    as (Hbest & Heval & Hpv & _).
  split; [exact Hbest|]. split; [exact Heval | exact Hpv].
Defined.

Lemma judge_move_second_search_witness :
  exists j w',
    judge_move (list Reply) scripted_search (Some e2e4) 4
      (demo_world start_board (tail demo_script)) = Ok (j, w')
    /\ exists m e,
         Some e2e4 = Some m
         /\ w' = searched_twice (list Reply) scripted_search m 4
                   (demo_world start_board (tail demo_script))
         /\ eval_numeric (w_info (list Reply) w') = Ok e
         /\ playedeval j = - e.
Proof.
  destruct (judge_move (list Reply) scripted_search (Some e2e4) 4
              (demo_world start_board (tail demo_script)))
    as [[j w']|e] eqn:Hrun; [|vm_compute in Hrun; discriminate Hrun].
  exists j, w'. split; [reflexivity|].
  destruct (judge_move_second_search (list Reply) scripted_search
              (Some e2e4) 4 (demo_world start_board (tail demo_script))
              j w' Hrun)
    as (m & e & Hm & Hw & He & Hp & _).
  - discriminate.
  - exists m, e. repeat split; assumption.
Defined.

Lemma judge_move_mate_comment_witness :
  exists j w',
    judge_move (list Reply) scripted_search (Some e7e5) 4
      (demo_world (board_push e2e4 start_board) [mate_reply]) = Ok (j, w')
    /\ bestcomment j = Some "Mate in 3"
    /\ playedcomment j = Some "Mate in 3".
Proof.
  destruct (judge_move (list Reply) scripted_search (Some e7e5) 4
              (demo_world (board_push e2e4 start_board) [mate_reply]))
    as [[j w']|e] eqn:Hrun; [|vm_compute in Hrun; discriminate Hrun].
  exists j, w'. split; [reflexivity|].
  destruct (judge_move_mate_comment (list Reply) scripted_search
              (Some e7e5) 4
              (demo_world (board_push e2e4 start_board) [mate_reply])
              j w' {| cp := None; mate := Some (-3) |} (-3)
              Hrun eq_refl eq_refl)
    as (Hbest & Hplayed).
  split; [exact Hbest | exact (Hplayed eq_refl)].
Defined.

Lemma judge_move_comments_set_witness :
  exists j w' bc pc,
    judge_move (list Reply) scripted_search (Some e7e5) 4
      (demo_world (board_push e2e4 start_board) demo_script) = Ok (j, w')
    /\ bestcomment j = Some bc
    /\ playedcomment j = Some pc.
Proof.
  destruct (judge_move (list Reply) scripted_search (Some e7e5) 4
              (demo_world (board_push e2e4 start_board) demo_script))
    as [[j w']|e] eqn:Hrun; [|vm_compute in Hrun; discriminate Hrun].
  destruct (judge_move_comments_set (list Reply) scripted_search
              (Some e7e5) 4
              (demo_world (board_push e2e4 start_board) demo_script)
              j w' Hrun)
    as (bc & pc & Hbc & Hpc).
  exists j, w', bc, pc. split; [reflexivity|]. split; assumption.
Defined.

Lemma judge_move_needs_pv_witness :
  judge_move (list Reply) scripted_search (Some e2e4) 4
    (demo_world start_board
       [{| reply_bestmove := Some d2d4; reply_info := cp_score 40 |}])
  = Raise KeyError.
Proof.
  exact (judge_move_needs_pv (list Reply) scripted_search (Some e2e4) 4
           (demo_world start_board
              [{| reply_bestmove := Some d2d4; reply_info := cp_score 40 |}])
           40 eq_refl eq_refl).
Defined.

Lemma add_annotation_line_witness :
  exists t',
    add_annotation 2 demo_judgment 4 demo_tree = Ok t'
    /\ is_line t' 3 [Some d7d5; Some g1f3] 4
    /\ comment <$> t' !! 4%nat = Some "-0.35".
Proof.
  exact (add_annotation_line 2 1 demo_judgment 4 demo_tree
           {| parent := Some 1%nat; move := Some e7e5; comment := "";
              nags := []; variations := [] |}
           {| parent := Some 0%nat; move := Some e2e4; comment := "";
              nags := []; variations := [2%nat] |}
           "-0.35" eq_refl eq_refl eq_refl eq_refl
           (fun _ => ex_intro _ "2.70" eq_refl)).
Defined.

Lemma add_annotation_frame_witness :
  exists t',
    add_annotation 2 demo_judgment 4 demo_tree = Ok t'
    /\ t' !! 0%nat = demo_tree !! 0%nat
    /\ comment <$> t' !! 2%nat = Some "2.70".
Proof.
  destruct (add_annotation_frame 2 1 demo_judgment 4 demo_tree
              {| parent := Some 1%nat; move := Some e7e5; comment := "";
                 nags := []; variations := [] |}
              {| parent := Some 0%nat; move := Some e2e4; comment := "";
                 nags := []; variations := [2%nat] |}
              eq_refl eq_refl eq_refl (ex_intro _ "-0.35" eq_refl)
              (fun _ => ex_intro _ "2.70" eq_refl))
    as (t' & Hrun & Hothers & _ & Hcomment).
  exists t'. split; [exact Hrun|]. split.
  - apply Hothers; [simpl; lia | lia | lia].
  - apply Hcomment. discriminate.
Defined.

Lemma add_annotation_raises_witness :
  add_annotation 0 demo_judgment 4 demo_tree = Raise AttributeError.
Proof.
  destruct (add_annotation_raises 0 demo_judgment 4 demo_tree
              {| parent := None; move := None; comment := ""; nags := [];
                 variations := [1%nat] |} eq_refl)
    as [_ Hroot].
  apply Hroot; [reflexivity|]. intros _. exists "2.70". reflexivity.
Defined.

Lemma add_annotation_preserves_witness :
  exists t',
    add_annotation 2 demo_judgment 4 demo_tree = Ok t'
    /\ (3 <= length t')%nat
    /\ exists n', t' !! 1%nat = Some n' /\ move n' = Some e2e4
                  /\ 2%nat ∈ variations n'.
Proof.
  destruct (add_annotation 2 demo_judgment 4 demo_tree) as [t'|e] eqn:Hrun;
    [|vm_compute in Hrun; discriminate Hrun].
  exists t'. split; [reflexivity|].
  destruct (add_annotation_preserves 2 demo_judgment 4 demo_tree t' Hrun)
    as [Hlen Hnodes].
  split; [exact Hlen|].
  destruct (Hnodes 1%nat
              {| parent := Some 0%nat; move := Some e2e4; comment := "";
                 nags := []; variations := [2%nat] |} eq_refl)
    as (n' & Hn' & _ & Hmove & Hkids).
  exists n'. split; [exact Hn'|]. split; [exact Hmove|].
  apply Hkids. constructor.
Defined.

Lemma main_root_comment_witness :
  exists t' w' log,
    main (list Reply) scripted_search "Stockfish 8" demo_rules start_board 4 0
      demo_tree (demo_world start_board demo_script) = Ok (t', w', log)
    /\ exists root,
         game_root (S (length t')) t' 0 = Ok root
         /\ comment <$> t' !! root = Some "Stockfish 8 Depth: 4".
Proof.
  destruct (main (list Reply) scripted_search "Stockfish 8" demo_rules
              start_board 4 0 demo_tree (demo_world start_board demo_script))
    as [[[t' w'] log]|e] eqn:Hrun; [|vm_compute in Hrun; discriminate Hrun].
  exists t', w', log. split; [reflexivity|].
  exact (main_root_comment (list Reply) scripted_search "Stockfish 8"
           demo_rules start_board 4 0 demo_tree
           (demo_world start_board demo_script) t' w' log Hrun).
Defined.


Lemma main_walk_order_witness :
  exists t' w' log,
    main (list Reply) scripted_search "Stockfish 8" demo_rules start_board 4 0
      demo_tree (demo_world start_board demo_script) = Ok (t', w', log)
    /\ exists root,
         game_root (S (length t')) t' 0 = Ok root
         /\ climbs t' (Some 2%nat) (judged_nodes log) root.
Proof.
  destruct (main (list Reply) scripted_search "Stockfish 8" demo_rules
              start_board 4 0 demo_tree (demo_world start_board demo_script))
    as [[[t' w'] log]|e] eqn:Hrun; [|vm_compute in Hrun; discriminate Hrun].
  exists t', w', log. split; [reflexivity|].
  destruct (main_walk_order (list Reply) scripted_search "Stockfish 8"
              demo_rules start_board 4 0 demo_tree
              (demo_world start_board demo_script) t' w' log Hrun)
    as (final & b & root & Hend & _ & Hroot & Hclimb).
  vm_compute in Hend. injection Hend as <-.
  exists root. split; [exact Hroot | exact Hclimb].
Defined.

Lemma main_empty_game_witness :
  main (list Reply) scripted_search "Stockfish 8" demo_rules start_board 4 0
    empty_game (demo_world start_board demo_script)
  = Raise AttributeError.
Proof.
  exact (main_empty_game (list Reply) scripted_search "Stockfish 8" demo_rules
           start_board 4 0 empty_game (demo_world start_board demo_script)
           {| parent := None; move := None; comment := ""; nags := [];
              variations := [] |} eq_refl eq_refl eq_refl).
Defined.

Lemma analyze_final_game_over_witness :
  analyze_final (list Reply) scripted_search mate_rules 4 start_board 4 2
    demo_tree (demo_world start_board demo_script)
  = Ok (set_comment demo_tree 2 "", demo_world start_board demo_script, []).
Proof.
  destruct (analyze_final_game_over (list Reply) scripted_search mate_rules
              4 start_board 4 2 demo_tree
              (demo_world start_board demo_script)
              (board_push e7e5 (board_push e2e4 start_board))
              eq_refl eq_refl)
    as (c & Hrun & Hc & _).
  vm_compute in Hc. injection Hc as <-. exact Hrun.
Defined.
